(** * CourtListener MCP server: the request guard and the upstream fetcher

    A shallow embedding of the security utilities of [src/index.ts]
    ([sanitizeString], [validateAndSanitizeParams], [validateApiToken],
    [normalizeApiResponse], [RateLimiter.isAllowed]) and of the request
    helper [makeCourtListenerRequest], with the properties the
    specification states about them.

    Conventions of the embedding:
    - a JavaScript string is the list of its UTF-16 code units ([N]);
    - a regular expression literal is a value of [regex], run by a
      backtracking matcher that follows the ECMAScript priority order;
    - a JavaScript object used as a record is the [gmap] of its own
      enumerable properties, from their names to their values; what it
      inherits from [Object.prototype] is written out where the program
      assigns to a key it does not choose ([assign]);
    - a finite number is a rational, which stands for the double nearest to
      it; [Number.prototype.toString] is the algorithm of ECMA-262;
    - [Date.now()] and the outcome of [fetch] are inputs of the model. *)

From Stdlib Require Import ZArith NArith QArith Qround Qabs String Ascii
  DecimalString.
From stdpp Require Import gmap list sorting.

Close Scope Q_scope.
Local Open Scope nat_scope.

(** ** JavaScript strings *)

Module JS.

(** A string is its sequence of UTF-16 code units. *)
Abbreviation jsstring := (list N).

(** The code units of an ASCII literal. *)
Fixpoint jsstr (s : string) : jsstring :=
  match s with
  | EmptyString => []
  | String a s' => N_of_ascii a :: jsstr s'
  end.
Arguments jsstr s%_string.

(** [String.prototype.substring(start, end)] on arguments that are natural
    numbers: both are clamped to the length and swapped when out of order. *)
Definition substring (start end_ : nat) (s : jsstring) : jsstring :=
  let a := Nat.min start (length s) in
  let b := Nat.min end_ (length s) in
  let from := Nat.min a b in
  let to := Nat.max a b in
  take (to - from) (drop from s).

(** *** Character classes *)

Definition charclass := N -> bool.

Definition is_upper (c : N) : bool := ((65 <=? c) && (c <=? 90))%N.
Definition is_lower (c : N) : bool := ((97 <=? c) && (c <=? 122))%N.
Definition is_digit (c : N) : bool := ((48 <=? c) && (c <=? 57))%N.

(** The canonical form of a code unit under the [i] flag (no [u] flag), on
    the ASCII range: a lower-case letter becomes its upper-case letter.  A
    code unit from 128 on never canonicalizes into the ASCII range (the
    ECMAScript rule keeps it when its upper case would be below 128), so it
    can never equal the canonical form of an ASCII pattern character: the
    model leaves it as it is. *)
Definition Canonicalize (c : N) : N :=
  if is_lower c then (c - 32)%N else c.

(** A pattern character under the [i] flag. *)
Definition chr_i (p : N) : charclass :=
  fun c => (Canonicalize c =? Canonicalize p)%N.

(** A bracket class of listed characters, [[...]]. *)
Definition one_of (ps : list N) : charclass :=
  fun c => existsb (fun p => (c =? p)%N) ps.

(** [\d], [\w] and [\s] (without the [u] flag the [i] flag adds nothing). *)
Definition cls_d : charclass := is_digit.
Definition cls_w : charclass :=
  fun c => is_upper c || is_lower c || is_digit c || (c =? 95)%N.
Definition cls_s : charclass :=
  fun c => one_of [9; 10; 11; 12; 13; 32; 160; 5760; 8232; 8233; 8239; 8287;
                   12288; 65279]%N c
           || ((8192 <=? c) && (c <=? 8202))%N.

(** [[a-f0-9]] *)
Definition cls_hex_lower : charclass :=
  fun c => ((97 <=? c) && (c <=? 102))%N || is_digit c.

(** *** Regular expressions

    The patterns of the program are sequences of quantified character
    classes, with [^] and [$] in one of them. *)

Inductive quant :=
  | One             (* x *)
  | Star            (* x* , greedy *)
  | Plus            (* x+ , greedy *)
  | Times (n : nat) (* x{n} *).

Inductive item :=
  | Cls (c : charclass) (q : quant)
  | Bol             (* ^ *)
  | Eol             (* $ *).

Abbreviation regex := (list item).

(** The characters of a literal, each one item. *)
Definition lit_i (s : jsstring) : regex := map (fun p => Cls (chr_i p) One) s.

(** The matcher works on the rest [s] of the input from index [i] and calls
    its continuation [k] with the index and rest after the items matched so
    far; [None] makes the last greedy choice give one character back. *)
Abbreviation cont := (nat -> jsstring -> option nat).

Fixpoint star (c : charclass) (k : cont) (i : nat) (s : jsstring) : option nat :=
  match s with
  | x :: s' =>
      if c x then
        match star c k (S i) s' with
        | Some e => Some e
        | None => k i s
        end
      else k i s
  | [] => k i []
  end.

Fixpoint times (c : charclass) (n : nat) (k : cont) (i : nat) (s : jsstring)
  : option nat :=
  match n with
  | 0 => k i s
  | S n' =>
      match s with
      | x :: s' => if c x then times c n' k (S i) s' else None
      | [] => None
      end
  end.

Fixpoint matcher (r : regex) (k : cont) (i : nat) (s : jsstring) : option nat :=
  match r with
  | [] => k i s
  | Cls c One :: r' =>
      match s with
      | x :: s' => if c x then matcher r' k (S i) s' else None
      | [] => None
      end
  | Cls c Star :: r' => star c (matcher r' k) i s
  | Cls c Plus :: r' =>
      match s with
      | x :: s' => if c x then star c (matcher r' k) (S i) s' else None
      | [] => None
      end
  | Cls c (Times n) :: r' => times c n (matcher r' k) i s
  | Bol :: r' => if i =? 0 then matcher r' k i s else None
  | Eol :: r' => match s with [] => matcher r' k i s | _ :: _ => None end
  end.

(** A match attempt at index [i], where the rest of the input is [s]: the
    end index of the match. *)
Definition match_at (r : regex) (i : nat) (s : jsstring) : option nat :=
  matcher r (fun e _ => Some e) i s.

(** [RegExp.prototype.test] of a pattern without the [g] flag: the first
    index from 0 on at which the pattern matches. *)
Fixpoint test_from (r : regex) (i : nat) (s : jsstring) : bool :=
  match match_at r i s with
  | Some _ => true
  | None =>
      match s with
      | [] => false
      | _ :: s' => test_from r (S i) s'
      end
  end.

Definition test (r : regex) (s : jsstring) : bool := test_from r 0 s.

(** [String.prototype.replace] with a pattern that has the [g] flag and a
    replacement without [$] patterns: the input is scanned from the left;
    a match is replaced and the scan goes on after it ([skip] counts the
    characters of the current match still to drop); an empty match puts the
    replacement in front of the next character, which is kept. *)
Fixpoint replace_from (r : regex) (rep : jsstring) (i skip : nat) (s : jsstring)
  : jsstring :=
  match s with
  | [] =>
      match skip, match_at r i [] with
      | 0, Some _ => rep
      | _, _ => []
      end
  | x :: s' =>
      match skip with
      | S k => replace_from r rep (S i) k s'
      | 0 =>
          match match_at r i s with
          | None => x :: replace_from r rep (S i) 0 s'
          | Some e =>
              match e - i with
              | 0 => rep ++ x :: replace_from r rep (S i) 0 s'
              | S n => rep ++ replace_from r rep (S i) n s'
              end
          end
      end
  end.

Definition replace (r : regex) (rep : jsstring) (s : jsstring) : jsstring :=
  replace_from r rep 0 0 s.

End JS.

Import JS.

(** ** The sanitizer ([sanitizeString], src/index.ts) *)

(** The bracket class of the first pattern: the code units of the less-than
    sign, the greater-than sign, the double quote, the single quote and the
    ampersand. *)
Definition dangerous : charclass := one_of [60; 62; 34; 39; 38]%N.
Definition re_dangerous : regex := [Cls dangerous One].
(** [/javascript:/gi], [/data:/gi], [/vbscript:/gi] *)
Definition re_javascript : regex := lit_i (jsstr "javascript:").
Definition re_data : regex := lit_i (jsstr "data:").
Definition re_vbscript : regex := lit_i (jsstr "vbscript:").
(** [/on\w+\s*=/gi] *)
Definition re_handler : regex :=
  lit_i (jsstr "on") ++ [Cls cls_w Plus; Cls cls_s Star; Cls (chr_i 61) One].
(** [/password\d*/gi], [/secret\d*/gi], [/token\d*/gi], [/key\d*/gi] *)
Definition re_word (w : jsstring) : regex := lit_i w ++ [Cls cls_d Star].
Definition re_password : regex := re_word (jsstr "password").
Definition re_secret : regex := re_word (jsstr "secret").
Definition re_token : regex := re_word (jsstr "token").
Definition re_key : regex := re_word (jsstr "key").

Definition REDACTED : jsstring := jsstr "[REDACTED]".

Definition MAX_STRING_LENGTH : nat := 1000.

Notation "s |> f" := (f s) (at level 45, left associativity, only parsing).

Definition sanitizeString (input : jsstring) : jsstring :=
  input
    |> replace re_dangerous []
    |> replace re_javascript []
    |> replace re_data []
    |> replace re_vbscript []
    |> replace re_handler []
    |> replace re_password REDACTED
    |> replace re_secret REDACTED
    |> replace re_token REDACTED
    |> replace re_key REDACTED
    |> substring 0 MAX_STRING_LENGTH.

(** ** JavaScript values *)

(** A number is an IEEE double: NaN, an infinity, or a finite value, which
    is a rational number ([Number_toString] and nothing else looks at its
    digits, and takes the double nearest to the rational). *)
Inductive number :=
  | NaN
  | Infinity (negative : bool)
  | Finite (q : Q).

Definition number_isNaN (n : number) : bool :=
  match n with NaN => true | _ => false end.

(** [n < 0] *)
Definition number_negative (n : number) : bool :=
  match n with
  | NaN => false
  | Infinity negative => negative
  | Finite q => (Qnum q <? 0)%Z
  end.

Definition number_of_nat (n : nat) : number := Finite (inject_Z (Z.of_nat n)).

(** The values of JSON bodies and of tool arguments. *)
#[warnings="-register-all"]
Inductive jsval :=
  | Undefined
  | Null
  | Bool (b : bool)
  | Num (n : number)
  | Str (s : jsstring)
  | Arr (a : list jsval)
  | Obj (o : gmap jsstring jsval).

Inductive jstype := TUndefined | TObject | TBoolean | TNumber | TString.

#[global] Instance jstype_eq_dec : EqDecision jstype.
Proof. solve_decision. Defined.

Definition typeof (v : jsval) : jstype :=
  match v with
  | Undefined => TUndefined
  | Null | Arr _ | Obj _ => TObject
  | Bool _ => TBoolean
  | Num _ => TNumber
  | Str _ => TString
  end.

(** ToBoolean *)
Definition truthy (v : jsval) : bool :=
  match v with
  | Undefined | Null => false
  | Bool b => b
  | Num NaN => false
  | Num (Infinity _) => true
  | Num (Finite q) => negb (Qnum q =? 0)%Z
  | Str s => negb (bool_decide (s = []))
  | Arr _ | Obj _ => true
  end.

Definition is_null (v : jsval) : bool :=
  match v with Null => true | _ => false end.

Definition isArray (v : jsval) : bool :=
  match v with Arr _ => true | _ => false end.

(** [v.k]: an own property of an object of the model, [undefined] otherwise. *)
Definition get_prop (v : jsval) (k : jsstring) : jsval :=
  match v with
  | Obj o => default Undefined (o !! k)
  | _ => Undefined
  end.

(** [v.k = x] *)
Definition set_prop (v : jsval) (k : jsstring) (x : jsval) : jsval :=
  match v with
  | Obj o => Obj (<[k := x]> o)
  | _ => v
  end.

(** [v.length] of an array *)
Definition array_length (v : jsval) : nat :=
  match v with Arr a => length a | _ => 0 end.

(** ** [validateApiToken] *)

(** [/^[a-f0-9]{40}$/] *)
Definition re_api_token : regex := [Bol; Cls cls_hex_lower (Times 40); Eol].

(** An optional string parameter is [None] when it is [undefined]; the empty
    string is falsy as well. *)
Definition present (token : option jsstring) : bool :=
  match token with
  | Some (_ :: _) => true
  | _ => false
  end.

Definition validateApiToken (token : option jsstring) : bool :=
  if negb (present token) then true
  else test re_api_token (default [] token).

(** ** [normalizeApiResponse] *)

Definition normalizeApiResponse (data : jsval) : jsval :=
  if truthy data && bool_decide (typeof data = TObject)
     && truthy (get_prop data (jsstr "results")) && isArray (get_prop data (jsstr "results"))
  then
    let data :=
      let count := get_prop data (jsstr "count") in
      if bool_decide (typeof count <> TNumber)
         || match count with
            | Num n => number_isNaN n || number_negative n
            | _ => false
            end
      then set_prop data (jsstr "count")
             (Num (number_of_nat (array_length (get_prop data (jsstr "results")))))
      else data in
    let data :=
      let next := get_prop data (jsstr "next") in
      if negb (is_null next) && bool_decide (typeof next <> TString)
      then set_prop data (jsstr "next") Null else data in
    let data :=
      let previous := get_prop data (jsstr "previous") in
      if negb (is_null previous) && bool_decide (typeof previous <> TString)
      then set_prop data (jsstr "previous") Null else data in
    data
  else data.

(** ** [RateLimiter] *)

Record RateLimiter := {
  requests : gmap jsstring (list Z);
  maxRequests : Z;
  windowMs : Z
}.

Definition RATE_LIMIT_REQUESTS : Z := 100.
Definition RATE_LIMIT_WINDOW_MS : Z := 60000.

(** [new RateLimiter(maxRequests, windowMs)] *)
Definition new_RateLimiter (maxRequests windowMs : Z) : RateLimiter :=
  {| requests := ∅; maxRequests := maxRequests; windowMs := windowMs |}.

(** The [while] loop of [isAllowed]: [shift] while the first recorded time is
    before the start of the window. *)
Fixpoint evict (windowStart : Z) (requestTimes : list Z) : list Z :=
  match requestTimes with
  | t :: rest =>
      if (t <? windowStart)%Z then evict windowStart rest else requestTimes
  | [] => []
  end.

(** [isAllowed(identifier)], with the value of [Date.now()] as [now]: the
    answer and the limiter afterwards.  The array of an identifier is shared
    with the map, so what [shift] and [push] do to it is stored back. *)
Definition isAllowed (this : RateLimiter) (identifier : jsstring) (now : Z)
  : bool * RateLimiter :=
  let windowStart := (now - windowMs this)%Z in
  let requests0 :=
    if bool_decide (is_Some (requests this !! identifier)) then requests this
    else <[identifier := []]> (requests this) in
  let requestTimes := default [] (requests0 !! identifier) in
  let requestTimes := evict windowStart requestTimes in
  let store (times : list Z) :=
    {| requests := <[identifier := times]> requests0;
       maxRequests := maxRequests this; windowMs := windowMs this |} in
  if (Z.of_nat (length requestTimes) >=? maxRequests this)%Z
  then (false, store requestTimes)
  else (true, store (requestTimes ++ [now])).

(** The recorded times of an identity. *)
Definition recorded (this : RateLimiter) (identifier : jsstring) : list Z :=
  default [] (requests this !! identifier).

(** A sequence of calls for one identity, at the given times in order. *)
Fixpoint calls (this : RateLimiter) (identifier : jsstring) (times : list Z)
  : list bool * RateLimiter :=
  match times with
  | [] => ([], this)
  | now :: later =>
      let '(answer, this) := isAllowed this identifier now in
      let '(answers, this) := calls this identifier later in
      (answer :: answers, this)
  end.

(** ** Effects of the request helper *)

(** What a [throw] or a rejected promise carries: an [Error] object with its
    [name] and [message], or any other value. *)
Inductive thrown :=
  | JsError (name message : jsstring)
  | NonError (v : jsval).

(** The module-level state the helper acts on: the [rateLimiter] singleton
    and the lines written by [console.error]. *)
Record world := {
  rateLimiter : RateLimiter;
  console : list jsstring
}.

(** How a block of statements completes: normally, by a [return] statement
    or by a [throw]. *)
Inductive completion (A : Type) :=
  | Normal (a : A)
  | Return (v : jsval)
  | Throw (e : thrown).
Arguments Normal {A} a.
Arguments Return {A} v.
Arguments Throw {A} e.

Definition M (A : Type) : Type := world -> completion A * world.

Definition ret {A} (a : A) : M A := fun w => (Normal a, w).

Definition bind {A B} (c : M A) (k : A -> M B) : M B :=
  fun w =>
    match c w with
    | (Normal a, w') => k a w'
    | (Return v, w') => (Return v, w')
    | (Throw e, w') => (Throw e, w')
    end.

Notation "x <- c ;; k" := (bind c (fun x => k))
  (at level 100, c at next level, right associativity).
Notation "c ;; k" := (bind c (fun _ => k))
  (at level 100, right associativity).

(** [return v;] *)
Definition return_ {A} (v : jsval) : M A := fun w => (Return v, w).

(** [if (b) { c }] *)
Definition when (b : bool) (c : M unit) : M unit := if b then c else ret tt.

(** [try { body } catch (error) { handler }] *)
Definition try_catch {A} (body : M A) (handler : thrown -> M A) : M A :=
  fun w =>
    match body w with
    | (Throw e, w') => handler e w'
    | other => other
    end.

(** [await p] of a promise that is settled by the environment. *)
Definition await {A} (p : thrown + A) : M A :=
  fun w =>
    match p with
    | inl e => (Throw e, w)
    | inr a => (Normal a, w)
    end.

Definition console_error (line : jsstring) : M unit :=
  fun w => (Normal tt,
            {| rateLimiter := rateLimiter w; console := console w ++ [line] |}).

(** How the promise of an [async] function settles. *)
Inductive settled :=
  | Fulfilled (v : jsval)
  | Rejected (e : thrown).

Definition async (body : M unit) : world -> settled * world :=
  fun w =>
    match body w with
    | (Normal _, w') => (Fulfilled Undefined, w')
    | (Return v, w') => (Fulfilled v, w')
    | (Throw e, w') => (Rejected e, w')
    end.

(** The request handed to [fetch], and what the environment answers. *)
Record request := {
  href : jsstring;
  searchParams : list (jsstring * jsstring);
  headers : list (jsstring * jsstring)
}.

Record response := {
  ok : bool;
  status : Z;
  json : thrown + jsval  (* [response.json()]: rejected on an invalid body *)
}.

Record environment := {
  Date_now : Z;
  (* a rejection is a network error, or an abort by the timeout timer *)
  fetch : request -> thrown + response
}.

Definition COURTLISTENER_API_BASE : jsstring :=
  jsstr "https://www.courtlistener.com/api/rest/v4".
Definition USER_AGENT : jsstring := jsstr "CourtListener-MCP-Server/1.0".

Definition Z_toString (z : Z) : jsstring :=
  jsstr (NilZero.string_of_int (Z.to_int z)).

Definition Boolean_toString (b : bool) : jsstring :=
  if b then jsstr "true" else jsstr "false".

(** ** [Number.prototype.toString]

    [Number::toString(x, 10)] of ECMA-262: for a finite [x] other than 0,
    integers [n], [k] and [s] with [k >= 1] and [10^(k-1) <= s < 10^k] such
    that [s * 10^(n-k)] rounds to [x] and [k] is as small as possible; of
    several [s] the one for which [s * 10^(n-k)] is nearest to [x], as the
    standard recommends and the engines do. *)

(** The integer nearest to [x], the even one of two that are as near. *)
Definition round_half_even (x : Q) : Z :=
  let f := Qfloor x in
  match (x - inject_Z f ?= 1 # 2)%Q with
  | Lt => f
  | Gt => (f + 1)%Z
  | Eq => if Z.even f then f else (f + 1)%Z
  end.

(** The [e] with [2^e <= x < 2^(e+1)], for a positive [x]. *)
Definition log2_floor (x : Q) : Z :=
  let e := (Z.log2 (Qnum x) - Z.log2 (Z.pos (Qden x)))%Z in
  if Qle_bool (2 ^ e) x then e else (e - 1)%Z.

(** The double nearest to a positive [x], as its significand and exponent:
    the value is [m * 2^e] with [m < 2^53], and [2^52 <= m] unless [e] is
    the least exponent, -1074. *)
Definition double_of (x : Q) : Z * Z :=
  let e := Z.max (log2_floor x - 52) (-1074) in
  let m := round_half_even (x / 2 ^ e) in
  if (m =? 2 ^ 53)%Z then (2 ^ 52, e + 1)%Z else (m, e).

(** The rationals that round to the double [m * 2^e]: those up to half the
    distance to the next double on either side, the middles included when [m]
    is even.  The double below a power of two is at half the distance. *)
Definition rounds_to (m e : Z) (v : Q) : bool :=
  let below :=
    if (m =? 2 ^ 52)%Z && (-1074 <? e)%Z then (1 # 4)%Q else (1 # 2)%Q in
  let lo := ((inject_Z m - below) * 2 ^ e)%Q in
  let hi := ((inject_Z m + (1 # 2)) * 2 ^ e)%Q in
  if Z.even m then Qle_bool lo v && Qle_bool v hi
  else negb (Qle_bool v lo) && negb (Qle_bool hi v).

(** The [n] with [10^(n-1) <= x < 10^n], for a positive [x]: looked for
    upwards from 1 when [1 <= x], downwards from 0 otherwise. *)
Fixpoint decade_up (fuel : nat) (n : Z) (x : Q) : Z :=
  match fuel with
  | 0 => n
  | S fuel' => if Qle_bool (10 ^ n) x then decade_up fuel' (n + 1)%Z x else n
  end.

Fixpoint decade_down (fuel : nat) (n : Z) (x : Q) : Z :=
  match fuel with
  | 0 => n
  | S fuel' =>
      if Qle_bool (10 ^ (n - 1)) x then n else decade_down fuel' (n - 1)%Z x
  end.

Definition decade (x : Q) : Z :=
  if Qle_bool 1 x then decade_up 400 1 x else decade_down 400 0 x.

(** The pairs [(s, n)] of step 5 of [Number::toString] for a given number
    [k] of digits: [s] has [k] digits and [s * 10^(n-k)] rounds to the
    double.  On either side of the double only the nearest multiple of
    [10^(n-k)] needs to be looked at. *)
Definition candidates (m e n0 k : Z) : list (Z * Z) :=
  let x := (inject_Z m * 2 ^ e)%Q in
  let around (n : Z) :=
    let f := Qfloor (x / 10 ^ (n - k)) in [(f, n); ((f + 1)%Z, n)] in
  List.filter
    (fun '(s, n) =>
       (10 ^ (k - 1) <=? s)%Z && (s <? 10 ^ k)%Z
       && rounds_to m e (inject_Z s * 10 ^ (n - k)))
    (around n0 ++ around (n0 + 1)%Z).

(** Of two candidates the one nearer to the double; the one with the even
    [s] when they are as near. *)
Definition nearer (m e k : Z) (a b : Z * Z) : Z * Z :=
  let x := (inject_Z m * 2 ^ e)%Q in
  let distance (c : Z * Z) := Qabs (inject_Z c.1 * 10 ^ (c.2 - k) - x) in
  match (distance b ?= distance a)%Q with
  | Lt => b
  | Eq => if Z.even b.1 then b else a
  | Gt => a
  end.

(** The least number of digits that has a candidate, from [k] on; 17
    digits tell any two doubles apart. *)
Fixpoint shortest (fuel : nat) (m e n0 k : Z) : Z * Z :=
  match candidates m e n0 k, fuel with
  | c :: cs, _ => foldl (nearer m e k) c cs
  | [], S fuel' => shortest fuel' m e n0 (k + 1)%Z
  | [], 0 => (0, 0)%Z
  end.

(** Steps 6 to 10 of [Number::toString]: the digits of [s] laid out for
    the position [n] of the decimal point. *)
Definition layout (s n : Z) : jsstring :=
  let digits := Z_toString s in
  let k := Z.of_nat (length digits) in
  if (k <=? n)%Z && (n <=? 21)%Z then
    digits ++ repeat 48%N (Z.to_nat (n - k))
  else if (0 <? n)%Z && (n <=? 21)%Z then
    take (Z.to_nat n) digits ++ jsstr "." ++ drop (Z.to_nat n) digits
  else if (-6 <? n)%Z && (n <=? 0)%Z then
    jsstr "0." ++ repeat 48%N (Z.to_nat (- n)) ++ digits
  else
    let exponent :=
      jsstr "e" ++ (if (0 <=? n - 1)%Z then jsstr "+" else jsstr "-")
        ++ Z_toString (Z.abs (n - 1)) in
    match digits with
    | [] => []
    | [d] => d :: exponent
    | d :: rest => d :: jsstr "." ++ rest ++ exponent
    end.

(** [Number.prototype.toString()], radix 10.  Zero of either sign gives
    the digit 0. *)
Definition Number_toString (n : number) : jsstring :=
  match n with
  | NaN => jsstr "NaN"
  | Infinity false => jsstr "Infinity"
  | Infinity true => jsstr "-Infinity"
  | Finite q =>
      let sign := if (Qnum q <? 0)%Z then jsstr "-" else [] in
      if (Qnum q =? 0)%Z then jsstr "0"
      else
        let '(m, e) := double_of (Qabs q) in
        if (m =? 0)%Z then jsstr "0"
        else if (971 <? e)%Z then sign ++ jsstr "Infinity"
        else
          let '(s, n) :=
            shortest 16 m e (decade (inject_Z m * 2 ^ e)) 1 in
          sign ++ layout s n
  end.


(** ** [validateAndSanitizeParams] *)

(** [o[key] = x] on an object that was made by [{}], for a string [x].
    Such an object inherits the accessor [__proto__] of [Object.prototype],
    whose setter does nothing when the value is neither an object nor
    [null]: the assignment to that key stores nothing.  Any other key
    becomes an own property, or has its value replaced. *)
Definition assign (o : gmap jsstring jsstring) (key x : jsstring)
  : gmap jsstring jsstring :=
  if bool_decide (key = jsstr "__proto__") then o else <[key := x]> o.

(** The callback of the [forEach] loop. *)
Definition store_entry (sanitized : gmap jsstring jsstring)
    (entry : jsstring * jsval) : gmap jsstring jsstring :=
  let '(key, value) := entry in
  match value with
  | Undefined | Null => sanitized
  | Str s => assign sanitized key (sanitizeString s)
  | Num n => assign sanitized key (Number_toString n)
  | Bool b => assign sanitized key (Boolean_toString b)
  | Arr _ | Obj _ => sanitized
  end.

(** [Object.entries(params)] lists the own enumerable properties of
    [params], each key once. *)
Definition validateAndSanitizeParams (params : gmap jsstring jsval)
  : gmap jsstring jsstring :=
  foldl store_entry ∅ (map_to_list params).

(** ** [makeCourtListenerRequest] *)

(** [rateLimiter.isAllowed(clientId)] on the singleton. *)
Definition rateLimiter_isAllowed (env : environment) (clientId : jsstring)
  : M bool :=
  fun w =>
    let '(allowed, limiter) := isAllowed (rateLimiter w) clientId (Date_now env) in
    (Normal allowed, {| rateLimiter := limiter; console := console w |}).

(** The body of the function.  The URL is the base followed by the endpoint
    (its host is fixed by the base, whatever the endpoint) with the query the
    loop appends; the timer that aborts the request after
    [MAX_REQUEST_TIMEOUT] ms belongs to the environment, where an abort makes
    [fetch] reject with an [AbortError]. *)
Definition makeCourtListenerRequest_body (env : environment)
    (endpoint : jsstring) (params : gmap jsstring jsval)
    (authToken : option jsstring) : M unit :=
  try_catch
    (when (present authToken && negb (validateApiToken authToken))
       (console_error (jsstr "Invalid API token format provided") ;;
        return_ Null) ;;
     let clientId :=
       if present authToken
       then jsstr "token:" ++ substring 0 8 (default [] authToken)
       else jsstr "anonymous" in
     allowed <- rateLimiter_isAllowed env clientId ;;
     when (negb allowed)
       (console_error (jsstr "Rate limit exceeded for client") ;;
        return_ Null) ;;
     let sanitizedParams := validateAndSanitizeParams params in
     let url_searchParams :=
       filter (fun kv => kv.2 <> []) (map_to_list sanitizedParams) in
     let headers0 :=
       [(jsstr "User-Agent", USER_AGENT);
        (jsstr "Accept", jsstr "application/json")] in
     let headers1 :=
       if present authToken
       then headers0 ++
            [(jsstr "Authorization", jsstr "Token " ++ default [] authToken)]
       else headers0 in
     response <- await (fetch env
                   {| href := COURTLISTENER_API_BASE ++ endpoint;
                      searchParams := url_searchParams;
                      headers := headers1 |}) ;;
     when (negb (ok response))
       (let statusCode := status response in
        (if (statusCode =? 401)%Z then
           console_error (jsstr "Authentication failed - invalid API token")
         else if (statusCode =? 429)%Z then
           console_error (jsstr "Rate limited by CourtListener API")
         else if (statusCode >=? 500)%Z then
           console_error (jsstr "CourtListener API server error")
         else
           console_error
             (jsstr "CourtListener API request failed with status: "
              ++ Z_toString statusCode)) ;;
        return_ Null) ;;
     data <- await (json response) ;;
     let normalizedData := normalizeApiResponse data in
     return_ normalizedData)
    (fun error =>
       match error with
       | JsError name _ =>
           if bool_decide (name = jsstr "AbortError")
           then console_error (jsstr "Request timeout")
           else console_error (jsstr "Network error occurred")
       | NonError _ => console_error (jsstr "Unknown error occurred")
       end ;;
       return_ Null).

Definition makeCourtListenerRequest (env : environment)
    (endpoint : jsstring) (params : gmap jsstring jsval)
    (authToken : option jsstring) : world -> settled * world :=
  async (makeCourtListenerRequest_body env endpoint params authToken).


(** ** Notions used to state the properties *)

(** [s] begins with the letters of [w], in any case. *)
Fixpoint starts_i (w s : jsstring) : bool :=
  match w, s with
  | [], _ => true
  | p :: w', x :: s' => chr_i p x && starts_i w' s'
  | _ :: _, [] => false
  end.

(** Some suffix of [s] begins with the letters of [w]. *)
Fixpoint contains_i (w s : jsstring) : bool :=
  starts_i w s ||
  match s with
  | [] => false
  | _ :: s' => contains_i w s'
  end.

(** The same as a proposition: [s] has a piece that reads [w] up to the case
    of its letters. *)
Definition occurs_i (w s : jsstring) : Prop :=
  exists l m r, s = l ++ m ++ r /\ map Canonicalize m = map Canonicalize w.

(** An item that has to consume a character of the class [c]. *)
Definition mandatory (it : item) (c : charclass) : Prop :=
  it = Cls c One \/ it = Cls c Plus.


(** The stages of [sanitizeString] after the first, before the truncation. *)
Definition later_stages (s : jsstring) : jsstring :=
  s |> replace re_javascript []
    |> replace re_data []
    |> replace re_vbscript []
    |> replace re_handler []
    |> replace re_password REDACTED
    |> replace re_secret REDACTED
    |> replace re_token REDACTED
    |> replace re_key REDACTED.




(** What [validateAndSanitizeParams] assigns for a value, if anything. *)
Definition sanitized_value (value : jsval) : option jsstring :=
  match value with
  | Str s => Some (sanitizeString s)
  | Num n => Some (Number_toString n)
  | Bool b => Some (Boolean_toString b)
  | Undefined | Null | Arr _ | Obj _ => None
  end.

(** What the loop of [validateAndSanitizeParams] leaves under a key: the
    assignment to the key [__proto__] stores nothing. *)
Definition assigned (key : jsstring) (value : jsval) : option jsstring :=
  if bool_decide (key = jsstr "__proto__") then None else sanitized_value value.

(** An object with the own property [__proto__], as [JSON.parse] makes
    it from a body with that key. *)
Definition proto_params : gmap jsstring jsval :=
  {[ jsstr "__proto__" := Str (jsstr "x") ]}.

(** The example of the specification:
    [{a: "x<y", b: 3, c: true, d: null, e: undefined, f: [1,2], g: {h:1}}] *)
Definition example_params : gmap jsstring jsval :=
  list_to_map
    [(jsstr "a", Str (jsstr "x<y"));
     (jsstr "b", Num (number_of_nat 3));
     (jsstr "c", Bool true);
     (jsstr "d", Null);
     (jsstr "e", Undefined);
     (jsstr "f", Arr [Num (number_of_nat 1); Num (number_of_nat 2)]);
     (jsstr "g", Obj {[ jsstr "h" := Num (number_of_nat 1) ]})].

(** The three steps of [normalizeApiResponse] on the properties of a list
    response. *)
Definition normalized_count (results : list jsval) (count : option jsval)
  : jsval :=
  match count with
  | Some (Num n) =>
      if number_isNaN n || number_negative n
      then Num (number_of_nat (length results)) else Num n
  | _ => Num (number_of_nat (length results))
  end.

Definition normalized_link (link : option jsval) : jsval :=
  match link with
  | Some (Str s) => Str s
  | _ => Null
  end.

(** A body with two results whose count is the string 7. *)
Definition body_count_string : gmap jsstring jsval :=
  list_to_map
    [(jsstr "results", Arr [Num (number_of_nat 1); Num (number_of_nat 2)]);
     (jsstr "count", Str (jsstr "7"))].

(** The limiter with the array of an identity replaced. *)
Definition store (this : RateLimiter) (identifier : jsstring) (times : list Z)
  : RateLimiter :=
  {| requests := <[identifier := times]> (requests this);
     maxRequests := maxRequests this; windowMs := windowMs this |}.

(** The times are within one window of each other: when a call is made, no
    earlier time of the list is before the start of its window. *)
Definition in_window (windowMs : Z) (times : list Z) : Prop :=
  forall t t', t ∈ times -> t' ∈ times -> (t' - windowMs <= t)%Z.

(** The recorded times that are in the window that starts at [windowStart]:
    those that are not before it. *)
Definition in_window_times (windowStart : Z) (times : list Z) : list Z :=
  filter (fun t => (windowStart <= t)%Z) times.

(** The identity [makeCourtListenerRequest] asks the limiter about, and the
    request it hands to [fetch]. *)
Definition clientId_of (authToken : option jsstring) : jsstring :=
  if present authToken
  then jsstr "token:" ++ substring 0 8 (default [] authToken)
  else jsstr "anonymous".

Definition outgoing_request
    (endpoint : jsstring) (params : gmap jsstring jsval)
    (authToken : option jsstring) : request :=
  {| href := COURTLISTENER_API_BASE ++ endpoint;
     searchParams :=
       filter (fun kv => kv.2 <> [])
         (map_to_list (validateAndSanitizeParams params));
     headers :=
       if present authToken
       then [(jsstr "User-Agent", USER_AGENT);
             (jsstr "Accept", jsstr "application/json")]
            ++ [(jsstr "Authorization", jsstr "Token " ++ default [] authToken)]
       else [(jsstr "User-Agent", USER_AGENT);
             (jsstr "Accept", jsstr "application/json")] |}.

(** The world after a line is written to the console, and after the
    limiter is asked about the identity of a credential. *)
Definition logged (w : world) (line : jsstring) : world :=
  {| rateLimiter := rateLimiter w; console := console w ++ [line] |}.

Definition limited (env : environment) (authToken : option jsstring) (w : world)
  : world :=
  {| rateLimiter :=
       (isAllowed (rateLimiter w) (clientId_of authToken) (Date_now env)).2;
     console := console w |}.

(** What the helper returns once [fetch] has answered: the value, and the
    line it writes to the console if it writes one. *)
Definition error_line (e : thrown) : jsstring :=
  match e with
  | JsError name _ =>
      if bool_decide (name = jsstr "AbortError")
      then jsstr "Request timeout"
      else jsstr "Network error occurred"
  | NonError _ => jsstr "Unknown error occurred"
  end.

Definition status_line (statusCode : Z) : jsstring :=
  if (statusCode =? 401)%Z
  then jsstr "Authentication failed - invalid API token"
  else if (statusCode =? 429)%Z
  then jsstr "Rate limited by CourtListener API"
  else if (statusCode >=? 500)%Z
  then jsstr "CourtListener API server error"
  else jsstr "CourtListener API request failed with status: "
       ++ Z_toString statusCode.

Definition answer_of (outcome : thrown + response) : jsval * option jsstring :=
  match outcome with
  | inl e => (Null, Some (error_line e))
  | inr resp =>
      if ok resp then
        match json resp with
        | inl e => (Null, Some (error_line e))
        | inr data => (normalizeApiResponse data, None)
        end
      else (Null, Some (status_line (status resp)))
  end.

(** The six ways a request fails. *)
Inductive failure (env : environment)
    (endpoint : jsstring) (params : gmap jsstring jsval)
    (authToken : option jsstring) (w : world) : Prop :=
  | MalformedCredential :
      validateApiToken authToken = false ->
      failure env endpoint params authToken w
  | RateLimitExceeded :
      (isAllowed (rateLimiter w) (clientId_of authToken) (Date_now env)).1
        = false ->
      failure env endpoint params authToken w
  | NetworkError name message :
      name <> jsstr "AbortError" ->
      fetch env (outgoing_request endpoint params authToken)
        = inl (JsError name message) ->
      failure env endpoint params authToken w
  | TimedOut message :
      fetch env (outgoing_request endpoint params authToken)
        = inl (JsError (jsstr "AbortError") message) ->
      failure env endpoint params authToken w
  | HttpStatus resp :
      fetch env (outgoing_request endpoint params authToken)
        = inr resp ->
      ok resp = false ->
      failure env endpoint params authToken w
  | InvalidJson resp e :
      fetch env (outgoing_request endpoint params authToken)
        = inr resp ->
      json resp = inl e ->
      failure env endpoint params authToken w.

(** Worlds and environments of the examples: a fresh limiter, a limiter
    whose anonymous identity has used its 100 requests at the time 0, and
    [fetch] functions that answer every request in one way. *)
Definition fresh_world : world :=
  {| rateLimiter := new_RateLimiter RATE_LIMIT_REQUESTS RATE_LIMIT_WINDOW_MS;
     console := [] |}.

Definition exhausted_world : world :=
  {| rateLimiter :=
       (calls (new_RateLimiter RATE_LIMIT_REQUESTS RATE_LIMIT_WINDOW_MS)
          (jsstr "anonymous") (repeat 0%Z 100)).2;
     console := [] |}.

Definition env_answering (outcome : thrown + response) : environment :=
  {| Date_now := 0; fetch := fun _ => outcome |}.

Definition network_down : thrown + response :=
  inl (JsError (jsstr "TypeError") (jsstr "fetch failed")).
Definition timed_out : thrown + response :=
  inl (JsError (jsstr "AbortError") (jsstr "This operation was aborted")).
Definition server_error : thrown + response :=
  inr {| ok := false; status := 500; json := inr Null |}.
Definition invalid_body : thrown + response :=
  inr {| ok := true; status := 200;
         json := inl (JsError (jsstr "SyntaxError")
                        (jsstr "Unexpected token < in JSON")) |}.

(** ** Notions used to state where the redaction applies *)







(** *** Patterns and the characters around a match *)








(** ** Further parts of [src/index.ts] *)

(** *** The input schemas of the tools

    [z.string().regex(r)] accepts the strings that [r.test] accepts;
    [.optional()] also accepts [undefined]. *)

(** [authTokenSchema]: the pattern of [validateApiToken], optional. *)
Definition authTokenSchema (value : option jsstring) : bool :=
  match value with
  | None => true
  | Some s => test re_api_token s
  end.

(** [dateSchema]: [/^\d{4}-\d{2}-\d{2}$/]; 45 is the code unit of the
    hyphen. *)
Definition re_date : regex :=
  [Bol; Cls cls_d (Times 4); Cls (one_of [45]%N) One; Cls cls_d (Times 2);
   Cls (one_of [45]%N) One; Cls cls_d (Times 2); Eol].

Definition dateSchema (value : jsstring) : bool := test re_date value.

(** ** Further notions used to state properties *)

(** The first letters of the patterns of the sanitizer: j, d, v, o, p, s,
    t, k. *)
Definition pattern_letters : list N :=
  [106; 100; 118; 111; 112; 115; 116; 107]%N.

(** A code unit at which no pattern of the sanitizer can start: none of the
    five dangerous characters and none of the first letters, in either
    case. *)
Definition inert (x : N) : bool :=
  negb (dangerous x) && forallb (fun p => negb (chr_i p x)) pattern_letters.

(** The number of characters a pattern without [*] and [+] consumes. *)
Fixpoint width (r : regex) : option nat :=
  match r with
  | [] => Some 0
  | Cls _ One :: r' => S <$> width r'
  | Cls _ (Times n) :: r' => (fun m => n + m) <$> width r'
  | Cls _ Star :: _ | Cls _ Plus :: _ => None
  | Bol :: r' | Eol :: r' => width r'
  end.

(** Every class of the pattern lies within [P]. *)
Definition classes_within (P : N -> Prop) (r : regex) : Prop :=
  Forall (fun it =>
            match it with
            | Cls c _ => forall x, c x = true -> P x
            | Bol | Eol => True
            end) r.

(** Calls for several identities, each with its time, in order. *)
Fixpoint serve (this : RateLimiter) (calls : list (jsstring * Z))
  : list bool * RateLimiter :=
  match calls with
  | [] => ([], this)
  | (identifier, now) :: later =>
      let '(answer, this) := isAllowed this identifier now in
      let '(answers, this) := serve this later in
      (answer :: answers, this)
  end.


(** * Facts about the matcher and the replacement *)

Section MatcherFacts.

(** A continuation that fails behind every suffix of [s] makes the whole
    match fail. *)
Lemma star_fails c (k : cont) s :
  (forall i t, t `suffix_of` s -> k i t = None) ->
  forall i t, t `suffix_of` s -> star c k i t = None.
Proof.
  intros Hk i t. revert i.
  induction t as [|x t IH]; intros i Ht; simpl.
  - by apply Hk.
  - destruct (c x); [|by apply Hk].
    rewrite IH; [by apply Hk|].
    by eapply suffix_cons_l.
Qed.

Lemma times_fails c n (k : cont) s :
  (forall i t, t `suffix_of` s -> k i t = None) ->
  forall i t, t `suffix_of` s -> times c n k i t = None.
Proof.
  intros Hk. induction n as [|n IH]; intros i t Ht; simpl.
  - by apply Hk.
  - destruct t as [|x t]; [done|].
    destruct (c x); [|done].
    apply IH. by eapply suffix_cons_l.
Qed.

Lemma matcher_fails r (k : cont) s :
  (forall i t, t `suffix_of` s -> k i t = None) ->
  forall i t, t `suffix_of` s -> matcher r k i t = None.
Proof.
  revert k. induction r as [|[c q| |] r IH]; intros k Hk i t Ht; simpl.
  - by apply Hk.
  - destruct q.
    + destruct t as [|x t]; [done|]. destruct (c x); [|done].
      apply IH; [done|]. by eapply suffix_cons_l.
    + apply star_fails with (s := s); [|done]. intros; by apply IH.
    + destruct t as [|x t]; [done|]. destruct (c x); [|done].
      apply star_fails with (s := s); [intros; by apply IH|].
      by eapply suffix_cons_l.
    + apply times_fails with (s := s); [|done]. intros; by apply IH.
  - destruct (i =? 0); [|done]. by apply IH.
  - destruct t; [|done]. by apply IH.
Qed.


Lemma matcher_mandatory r1 it c r2 (k : cont) s :
  mandatory it c ->
  Forall (fun x => c x = false) s ->
  forall i t, t `suffix_of` s -> matcher (r1 ++ it :: r2) k i t = None.
Proof.
  intros Hit Hs.
  assert (Hc : forall t x, (x :: t) `suffix_of` s -> c x = false).
  { intros t x [l Hl]. rewrite Forall_forall in Hs. apply Hs.
    rewrite Hl. apply elem_of_app. right. left. }
  assert (Hhere : forall i t, t `suffix_of` s ->
             matcher (it :: r2) k i t = None).
  { intros i t Ht. destruct Hit as [-> | ->]; simpl.
    - destruct t as [|x t]; [done|]. by rewrite (Hc t x).
    - destruct t as [|x t]; [done|]. by rewrite (Hc t x). }
  induction r1 as [|[c' q| |] r1 IH]; intros i t Ht.
  - by apply Hhere.
  - simpl. destruct q.
    + destruct t as [|x t]; [done|]. destruct (c' x); [|done].
      apply IH. by eapply suffix_cons_l.
    + apply star_fails with (s := s); [|done]. intros; by apply IH.
    + destruct t as [|x t]; [done|]. destruct (c' x); [|done].
      apply star_fails with (s := s); [intros; by apply IH|].
      by eapply suffix_cons_l.
    + apply times_fails with (s := s); [|done]. intros; by apply IH.
  - simpl. destruct (i =? 0); [|done]. by apply IH.
  - simpl. destruct t; [|done]. by apply IH.
Qed.

End MatcherFacts.

(** * Facts about [replace] *)

Lemma replace_from_id r rep s :
  (forall i t, t `suffix_of` s -> match_at r i t = None) ->
  forall i, replace_from r rep i 0 s = s.
Proof.
  induction s as [|x s IH]; intros Hno i; simpl.
  - by rewrite Hno.
  - rewrite Hno by done. f_equal. apply IH.
    intros j t Ht. apply Hno. by apply suffix_cons_r.
Qed.

(** A pattern with an item that must consume a character the input does not
    have leaves the input as it is. *)
Lemma replace_from_unmatched r1 it c r2 rep s i :
  mandatory it c ->
  Forall (fun x => c x = false) s ->
  replace_from (r1 ++ it :: r2) rep i 0 s = s.
Proof.
  intros Hit Hs. apply replace_from_id.
  intros j t Ht. by eapply matcher_mandatory.
Qed.

Lemma replace_unmatched r1 it c r2 rep s :
  mandatory it c ->
  Forall (fun x => c x = false) s ->
  replace (r1 ++ it :: r2) rep s = s.
Proof. apply replace_from_unmatched. Qed.

(** Every character of the result comes from the input or from the
    replacement. *)
Lemma replace_from_elem r rep s : forall i skip x,
  x ∈ replace_from r rep i skip s -> x ∈ s \/ x ∈ rep.
Proof.
  induction s as [|y s IH]; intros i skip x; simpl.
  - destruct skip; [destruct (match_at r i [])|]; set_solver.
  - destruct skip as [|skip].
    + destruct (match_at r i (y :: s)) as [e|].
      * destruct (e - i); rewrite ?elem_of_app, ?elem_of_cons;
          intros H; destruct_or?; eauto using list_elem_of_here;
          apply IH in H as [?|?]; eauto using list_elem_of_further.
      * rewrite elem_of_cons. intros [->|H]; [left; left|].
        apply IH in H as [?|?]; eauto using list_elem_of_further.
    + intros H. apply IH in H as [?|?]; eauto using list_elem_of_further.
Qed.

(** Deleting the matches of a one-character class leaves no character of
    the class. *)
Lemma replace_class_elem c s : forall i x,
  x ∈ replace_from [Cls c One] [] i 0 s -> c x = false.
Proof.
  induction s as [|y s IH]; intros i x; cbn.
  - set_solver.
  - destruct (c y) eqn:Hy; cbn.
    + replace (S i - i) with 1 by lia. cbn. apply IH.
    + rewrite elem_of_cons. intros [->|H]; [done|]. by eapply IH.
Qed.

(** * Occurrences of a word, whatever the case of its letters *)


Lemma chr_i_spec p x : chr_i p x = true <-> Canonicalize x = Canonicalize p.
Proof. unfold chr_i. apply N.eqb_eq. Qed.

Lemma starts_i_spec w s :
  starts_i w s = true <->
  exists m r, s = m ++ r /\ map Canonicalize m = map Canonicalize w.
Proof.
  revert s. induction w as [|p w IH]; intros s; simpl.
  - split; [|done]. intros _. by exists [], s.
  - destruct s as [|x s].
    + split; [done|]. intros (m & r & Hs & Hm).
      destruct m; [done|]. discriminate.
    + rewrite andb_true_iff, chr_i_spec, IH. split.
      * intros (Hx & m & r & -> & Hm). exists (x :: m), r. simpl.
        by rewrite Hx, Hm.
      * intros (m & r & Hs & Hm). destruct m as [|y m]; [done|].
        simpl in *. simplify_eq. eauto.
Qed.

Lemma contains_i_spec w s : contains_i w s = true <-> occurs_i w s.
Proof.
  unfold occurs_i. induction s as [|x s IH]; simpl.
  - rewrite orb_false_r, starts_i_spec. split.
    + intros (m & r & Hs & Hm). by exists [], m, r.
    + intros (l & m & r & Hs & Hm). exists m, r.
      destruct l; [done|]. discriminate.
  - rewrite orb_true_iff, starts_i_spec, IH. split.
    + intros [(m & r & Hs & Hm) | (l & m & r & Hs & Hm)].
      * by exists [], m, r.
      * exists (x :: l), m, r. by rewrite Hs.
    + intros (l & m & r & Hs & Hm). destruct l as [|y l].
      * left. by exists m, r.
      * right. simpl in Hs. simplify_eq. eauto.
Qed.




(** * A replacement that begins with a character no letter of the word
      matches keeps occurrences of the word from forming *)

Section Barrier.

Variables (w : jsstring) (b : N) (rep' : jsstring).
Let rep := b :: rep'.

(** No letter of [w] matches [b], and no occurrence of [w] begins inside the
    replacement. *)
Hypothesis w_nonempty : w <> [].
Hypothesis barrier : Forall (fun p => chr_i p b = false) w.
Hypothesis rep_clean : forall o, contains_i w (rep ++ o) = contains_i w o.








End Barrier.

(** * The patterns of the sanitizer *)









(** * The sanitizer *)

Lemma substring_0 n s : substring 0 n s = take n s.
Proof.
  unfold substring. simpl. rewrite Nat.sub_0_r.
  revert n. induction s as [|x s IH]; intros [|n]; simpl; try done.
  f_equal. apply IH.
Qed.


Lemma sanitizeString_stages s :
  sanitizeString s =
  take MAX_STRING_LENGTH (later_stages (replace re_dangerous [] s)).
Proof. unfold sanitizeString. by rewrite substring_0. Qed.

(** The result has none of the five dangerous characters. *)
Lemma sanitizeString_no_dangerous s x :
  x ∈ sanitizeString s -> dangerous x = false.
Proof.
  rewrite sanitizeString_stages. intros Hx. apply subseteq_take in Hx.
  unfold later_stages in Hx.
  repeat match type of Hx with
  | _ ∈ replace ?r _ _ =>
      lazymatch r with
      | re_dangerous => fail
      | _ =>
        apply replace_from_elem in Hx as [Hx | Hx];
        [| first [by apply elem_of_nil in Hx
                 | by repeat (apply elem_of_cons in Hx as [-> | Hx]; [done|]);
                      apply elem_of_nil in Hx] ]
      end
  end.
  by apply replace_class_elem in Hx.
Qed.

(** The result has at most 1000 code units. *)
Lemma sanitizeString_length s : length (sanitizeString s) <= MAX_STRING_LENGTH.
Proof. rewrite sanitizeString_stages, length_take. lia. Qed.

(** ** Characters of words and digits *)








(** ** Stages that leave a text alone *)








(** ** The redaction *)













(** * Matches and the characters around them *)




















(** * Delimiters and the patterns of the sanitizer *)








(** * The stages of the sanitizer around a text that is set off *)

















(** * Texts in which the sanitizer finds nothing *)






(** ** What the specification says about the sanitizer *)

(** C1 (the result of [sanitizeString] has no dangerous character, no
    spelling of [javascript:], [data:] or [vbscript:], no event-handler
    pattern, and at most 1000 code units).  The two bounds on characters and
    length hold ([sanitizeString_no_dangerous], [sanitizeString_length]).
    The patterns are deleted in one pass each, so a pattern wrapped around
    another one is put together by the deletion and stays in the result:
    the input [javajavascript:script:] gives [javascript:], the input
    [jadata:vascript:] as well (the [data:] stage comes after the
    [javascript:] stage), and [oonclick=nclick=] gives [onclick=]. *)
Theorem sanitizeString_nested_pattern_survives :
  sanitizeString (jsstr "javajavascript:script:") = jsstr "javascript:" /\
  occurs_i (jsstr "javascript:")
    (sanitizeString (jsstr "javajavascript:script:")) /\
  sanitizeString (jsstr "jadata:vascript:") = jsstr "javascript:" /\
  sanitizeString (jsstr "dadata:ta:") = jsstr "data:" /\
  sanitizeString (jsstr "vbvbscript:script:") = jsstr "vbscript:" /\
  sanitizeString (jsstr "oonclick=nclick=") = jsstr "onclick=" /\
  test re_handler (sanitizeString (jsstr "oonclick=nclick=")) = true.
Proof.
  repeat split; try by vm_compute.
  apply contains_i_spec. by vm_compute.
Qed.

(** C5 (sanitizing twice is the same as sanitizing once).  On the input
    [javajavascript:script:] the first pass gives [javascript:], which has
    11 code units, and the second pass deletes it: the second pass finds
    what the first one put together. *)
Theorem sanitizeString_second_pass_differs :
  let x := jsstr "javajavascript:script:" in
  length (sanitizeString x) <= 1000 /\
  sanitizeString x = jsstr "javascript:" /\
  sanitizeString (sanitizeString x) = [] /\
  sanitizeString (sanitizeString x) <> sanitizeString x.
Proof.
  intros x. split; [|split; [|split]].
  - vm_compute. lia.
  - by vm_compute.
  - by vm_compute.
  - vm_compute. discriminate.
Qed.




(** * The credential format ([validateApiToken]) *)

Lemma times_exact c n : forall s i,
  times c n (matcher [Eol] (fun e _ => Some e)) i s
  = if bool_decide (length s = n /\ Forall (fun x => c x = true) s)
    then Some (i + n) else None.
Proof.
  induction n as [|n IH]; intros s i; cbn [times].
  - destruct s as [|x s]; cbn [matcher]; case_bool_decide as H.
    + f_equal. lia.
    + destruct H. by split.
    + by destruct H.
    + done.
  - destruct s as [|x s].
    + case_bool_decide as H; [by destruct H|done].
    + destruct (c x) eqn:Hx.
      * rewrite IH. case_bool_decide as H1; case_bool_decide as H2.
        -- f_equal. lia.
        -- exfalso. apply H2. destruct H1. split; [simpl; lia|by constructor].
        -- exfalso. apply H1. destruct H2 as [? H2].
           inversion_clear H2. split; [simpl in *; lia|done].
        -- done.
      * case_bool_decide as H; [|done].
        destruct H as [_ H]. inversion_clear H. congruence.
Qed.

(** A pattern that begins with [^] matches at index 0 only. *)
Lemma test_from_Bol r s : forall i, 0 < i -> test_from (Bol :: r) i s = false.
Proof.
  induction s as [|x s IH]; intros i Hi; simpl;
    unfold match_at; simpl; destruct i; try lia; simpl; [done|].
  apply IH. lia.
Qed.

Lemma test_re_api_token s :
  test re_api_token s
  = bool_decide (length s = 40 /\ Forall (fun x => cls_hex_lower x = true) s).
Proof.
  unfold test, re_api_token.
  destruct s as [|x s]; cbn [test_from];
    unfold match_at; cbn [matcher Nat.eqb]; rewrite times_exact;
    case_bool_decide; try done.
  apply test_from_Bol. lia.
Qed.

(** C6 ([validateApiToken]): an absent or empty credential is accepted; a
    present one is accepted exactly when it has 40 characters, each a digit
    or a lower-case letter from a to f.  So 39 or 41 characters, upper-case
    hexadecimal digits, a character outside the hexadecimal digits, an
    injection payload and a path traversal are refused.  The function is
    total and returns a boolean. *)
Theorem validateApiToken_spec :
  (forall token : option jsstring,
     validateApiToken token = true <->
     token = None \/ token = Some [] \/
     exists s, token = Some s /\ length s = 40 /\
               Forall (fun x => cls_hex_lower x = true) s) /\
  (forall x, cls_hex_lower x = true <->
             (48 <= x <= 57)%N \/ (97 <= x <= 102)%N) /\
  validateApiToken (Some (repeat 97%N 40)) = true /\
  validateApiToken (Some (repeat 97%N 39)) = false /\
  validateApiToken (Some (repeat 97%N 41)) = false /\
  validateApiToken (Some (repeat 65%N 40)) = false /\
  validateApiToken (Some (103%N :: repeat 97%N 39)) = false /\
  validateApiToken (Some (jsstr "<script>alert(1)</script>")) = false /\
  validateApiToken (Some (jsstr "../../etc/passwd")) = false.
Proof.
  split; [|split; [|by vm_compute]].
  - intros token. unfold validateApiToken.
    destruct token as [[|x s]|]; simpl.
    + split; eauto.
    + rewrite test_re_api_token, bool_decide_eq_true. split.
      * intros H. right. right. by exists (x :: s).
      * intros [?|[?|(s' & ? & ?)]]; by simplify_eq.
    + split; eauto.
  - intros x. unfold cls_hex_lower, is_digit.
    rewrite orb_true_iff, !andb_true_iff, !N.leb_le. lia.
Qed.

(** Instances: forty times the letter a, no credential, the empty one. *)
Lemma validateApiToken_spec_witness :
  validateApiToken (Some (repeat 97%N 40)) = true /\
  validateApiToken None = true /\
  validateApiToken (Some []) = true.
Proof.
  pose proof (proj1 validateApiToken_spec) as Hiff.
  split; [|split].
  - apply Hiff. right. right. exists (repeat 97%N 40).
    split; [reflexivity|]. split; [reflexivity|]. by repeat constructor.
  - apply Hiff. by left.
  - apply Hiff. right. by left.
Defined.

(** * The parameters ([validateAndSanitizeParams]) *)

Lemma store_entry_lookup sanitized key value k :
  store_entry sanitized (key, value) !! k
  = if decide (key = k)
    then match assigned key value with
         | Some x => Some x
         | None => sanitized !! k
         end
    else sanitized !! k.
Proof.
  unfold store_entry, assigned, assign. case_decide as Hk.
  - subst. destruct value; cbn [sanitized_value]; case_bool_decide;
      by rewrite ?lookup_insert_eq.
  - destruct value; cbn [sanitized_value]; try done; case_bool_decide;
      by rewrite ?lookup_insert_ne.
Qed.

Lemma foldl_store_entry_lookup (entries : list (jsstring * jsval)) :
  forall sanitized k,
  NoDup entries.*1 ->
  foldl store_entry sanitized entries !! k
  = match (list_to_map entries : gmap jsstring jsval) !! k ≫= assigned k with
    | Some x => Some x
    | None => sanitized !! k
    end.
Proof.
  induction entries as [|[key value] entries IH]; intros sanitized k Hnd.
  - done.
  - simpl in Hnd. apply NoDup_cons in Hnd as [Hkey Hnd].
    cbn [foldl]. rewrite IH by done. rewrite list_to_map_cons.
    rewrite store_entry_lookup. case_decide as Hk.
    + subst. rewrite lookup_insert_eq.
      rewrite (not_elem_of_list_to_map_1 entries k) by done. simpl.
      by destruct (assigned k value).
    + by rewrite lookup_insert_ne.
Qed.

(** The loop as a map over the entries of the input. *)
Lemma validateAndSanitizeParams_lookup params key :
  validateAndSanitizeParams params !! key = params !! key ≫= assigned key.
Proof.
  unfold validateAndSanitizeParams.
  rewrite foldl_store_entry_lookup by apply NoDup_fst_map_to_list.
  rewrite list_to_map_to_list, lookup_empty.
  by destruct (params !! key ≫= assigned key).
Qed.

Lemma filter_key_absent {V} (entries : list (jsstring * V)) key :
  key ∉ entries.*1 -> filter (fun kv => kv.1 = key) entries = [].
Proof.
  induction entries as [|[k v] entries IH]; intros Hk; [done|].
  simpl in Hk. apply not_elem_of_cons in Hk as [Hne Hk].
  rewrite filter_cons. simpl. rewrite decide_False by done. by apply IH.
Qed.

(** Among entries with distinct keys, a key selects its entry. *)
Lemma filter_key {V} (entries : list (jsstring * V)) key x :
  NoDup entries.*1 -> (key, x) ∈ entries ->
  filter (fun kv => kv.1 = key) entries = [(key, x)].
Proof.
  induction entries as [|[k v] entries IH]; intros Hnd Hin.
  - by apply elem_of_nil in Hin.
  - simpl in Hnd. apply NoDup_cons in Hnd as [Hk Hnd].
    rewrite filter_cons. simpl. apply elem_of_cons in Hin as [Heq|Hin].
    + simplify_eq. rewrite decide_True by done. f_equal.
      by apply filter_key_absent.
    + rewrite decide_False; [by apply IH|].
      intros ->. apply Hk. apply list_elem_of_fmap. by exists (key, x).
Qed.

(** C7 as the specification has it: every key whose value is a string, a
    number or a boolean is in the output.  The input with the own property
    [__proto__], whose value is the string x, has an empty output: the
    assignment [sanitized[key] = ...] to that key of a fresh object runs the
    setter inherited from [Object.prototype], which stores nothing. *)
Lemma validateAndSanitizeParams_drops_proto :
  proto_params !! jsstr "__proto__" = Some (Str (jsstr "x")) /\
  typeof (Str (jsstr "x")) = TString /\
  validateAndSanitizeParams proto_params !! jsstr "__proto__" = None /\
  map_to_list (validateAndSanitizeParams proto_params) = [].
Proof.
  split; [by vm_compute|]. split; [done|]. split; by vm_compute.
Qed.

(** C7, amended ([validateAndSanitizeParams]): a key whose value is
    [undefined], [null], an array or an object is omitted, and so is the key
    [__proto__], whatever its value; under any other key a string value is
    replaced by its sanitized form, a number or a boolean by its
    [toString()] (0 gives the string 0, false the string false; a half gives
    0.5, 2^60 gives 1152921504606847000 and 10^21 gives 1e+21); every admitted
    key other than [__proto__] is in the entries of the result exactly once. *)
Theorem validateAndSanitizeParams_spec (params : gmap jsstring jsval) :
  let sanitized := validateAndSanitizeParams params in
  (forall key,
     sanitized !! key =
     if bool_decide (key = jsstr "__proto__") then None
     else
       match params !! key with
       | None | Some Undefined | Some Null | Some (Arr _) | Some (Obj _) => None
       | Some (Str s) => Some (sanitizeString s)
       | Some (Num n) => Some (Number_toString n)
       | Some (Bool b) => Some (Boolean_toString b)
       end) /\
  (forall key value,
     key <> jsstr "__proto__" ->
     params !! key = Some value ->
     typeof value = TString \/ typeof value = TNumber
       \/ typeof value = TBoolean ->
     exists x, filter (fun kv => kv.1 = key) (map_to_list sanitized)
               = [(key, x)]) /\
  (Number_toString (Finite 0) = jsstr "0" /\
   Number_toString (Finite (1 # 2)) = jsstr "0.5" /\
   Number_toString (Finite (inject_Z (2 ^ 60))) = jsstr "1152921504606847000" /\
   Number_toString (Finite (inject_Z (10 ^ 21))) = jsstr "1e+21" /\
   Number_toString NaN = jsstr "NaN") /\
  Boolean_toString false = jsstr "false".
Proof.
  intros sanitized.
  assert (Hlookup : forall key,
     sanitized !! key =
     if bool_decide (key = jsstr "__proto__") then None
     else
       match params !! key with
       | None | Some Undefined | Some Null | Some (Arr _) | Some (Obj _) => None
       | Some (Str s) => Some (sanitizeString s)
       | Some (Num n) => Some (Number_toString n)
       | Some (Bool b) => Some (Boolean_toString b)
       end).
  { intros key. unfold sanitized.
    rewrite validateAndSanitizeParams_lookup. unfold assigned.
    destruct (params !! key) as [[]|]; simpl; by case_bool_decide. }
  split; [done|]. split; [|split; [|done]].
  - intros key value Hproto Hkey Hty.
    assert (exists x, sanitized !! key = Some x) as [x Hx].
    { rewrite Hlookup, Hkey, bool_decide_eq_false_2 by done.
      destruct value; simpl in Hty; destruct_or?; try discriminate; eauto. }
    exists x. apply filter_key.
    + apply NoDup_fst_map_to_list.
    + by apply elem_of_map_to_list.
  - repeat split; by vm_compute.
Qed.

(** An instance: the example of the specification. *)
Lemma validateAndSanitizeParams_spec_witness :
  let sanitized := validateAndSanitizeParams example_params in
  sanitized !! jsstr "a" = Some (jsstr "xy") /\
  sanitized !! jsstr "b" = Some (jsstr "3") /\
  sanitized !! jsstr "c" = Some (jsstr "true") /\
  sanitized !! jsstr "d" = None /\
  sanitized !! jsstr "e" = None /\
  sanitized !! jsstr "f" = None /\
  sanitized !! jsstr "g" = None /\
  exists x, filter (fun kv => kv.1 = jsstr "b") (map_to_list sanitized)
            = [(jsstr "b", x)].
Proof.
  intros sanitized.
  destruct (validateAndSanitizeParams_spec example_params)
    as (Hlookup & Honce & _).
  fold sanitized in Hlookup, Honce.
  split; [rewrite Hlookup; by vm_compute|].
  split; [rewrite Hlookup; by vm_compute|].
  split; [rewrite Hlookup; by vm_compute|].
  split; [rewrite Hlookup; by vm_compute|].
  split; [rewrite Hlookup; by vm_compute|].
  split; [rewrite Hlookup; by vm_compute|].
  split; [rewrite Hlookup; by vm_compute|].
  apply (Honce (jsstr "b") (Num (number_of_nat 3))).
  - discriminate.
  - by vm_compute.
  - right. left. reflexivity.
Defined.

(** * The response envelope ([normalizeApiResponse]) *)

Lemma count_step (o : gmap jsstring jsval) results :
  o !! jsstr "results" = Some (Arr results) ->
  (if bool_decide (typeof (get_prop (Obj o) (jsstr "count")) <> TNumber)
      || match get_prop (Obj o) (jsstr "count") with
         | Num n => number_isNaN n || number_negative n
         | _ => false
         end
   then set_prop (Obj o) (jsstr "count")
          (Num (number_of_nat (array_length (get_prop (Obj o) (jsstr "results")))))
   else Obj o)
  = Obj (<[jsstr "count" := normalized_count results (o !! jsstr "count")]> o).
Proof.
  intros Hres. cbn [get_prop set_prop]. rewrite Hres. cbn [default array_length].
  destruct (o !! jsstr "count") as [[| | |n| | |]|] eqn:Hc; simpl; try done.
  destruct (number_isNaN n || number_negative n); simpl; [done|].
  by rewrite insert_id.
Qed.

Lemma link_step (k : jsstring) (m : gmap jsstring jsval) :
  (if negb (is_null (get_prop (Obj m) k))
      && bool_decide (typeof (get_prop (Obj m) k) <> TString)
   then set_prop (Obj m) k Null else Obj m)
  = Obj (<[k := normalized_link (m !! k)]> m).
Proof.
  cbn [get_prop set_prop].
  destruct (m !! k) as [[]|] eqn:Hk; simpl; try done; by rewrite insert_id.
Qed.

Lemma normalizeApiResponse_Obj (o : gmap jsstring jsval) results :
  o !! jsstr "results" = Some (Arr results) ->
  normalizeApiResponse (Obj o)
  = Obj (<[jsstr "previous" := normalized_link (o !! jsstr "previous")]>
          (<[jsstr "next" := normalized_link (o !! jsstr "next")]>
            (<[jsstr "count" := normalized_count results (o !! jsstr "count")]>
               o))).
Proof.
  intros Hres.
  assert (Hcond :
    truthy (Obj o) && bool_decide (typeof (Obj o) = TObject)
    && truthy (get_prop (Obj o) (jsstr "results"))
    && isArray (get_prop (Obj o) (jsstr "results")) = true).
  { cbn [get_prop]. by rewrite Hres. }
  unfold normalizeApiResponse. rewrite Hcond. cbv zeta.
  rewrite (count_step o results Hres). rewrite !link_step.
  do 2 f_equal.
  - by rewrite !lookup_insert_ne by done.
  - f_equal. by rewrite lookup_insert_ne by done.
Qed.

Lemma number_negative_Finite q : number_negative (Finite q) = false <-> (0 <= q)%Q.
Proof.
  simpl. rewrite Z.ltb_ge. unfold Qle. simpl. lia.
Qed.

(** C2 as the specification has it: a count that is a numeric string is
    parsed.  The body with two results and the count "7" gets the count 2,
    the number of its results, not 7. *)
Lemma normalizeApiResponse_numeric_string_not_parsed :
  get_prop (normalizeApiResponse (Obj body_count_string)) (jsstr "count")
    = Num (number_of_nat 2) /\
  get_prop (normalizeApiResponse (Obj body_count_string)) (jsstr "count")
    <> Num (number_of_nat 7).
Proof. split; [by vm_compute|]. vm_compute. discriminate. Qed.

(** C2, amended: on a body with a [results] array, the count is kept when
    it is a number that is neither NaN nor negative (so when it is finite
    and at least 0), and is the number of results in every other case: count
    missing, NaN, negative, or not a number at all, which includes every
    string, numeric or not; [next] and [previous] are kept when they are a
    string or [null] and are [null] otherwise; no other property changes. *)
Theorem normalizeApiResponse_list (o : gmap jsstring jsval) (results : list jsval) :
  o !! jsstr "results" = Some (Arr results) ->
  exists o',
    normalizeApiResponse (Obj o) = Obj o' /\
    (forall q, o !! jsstr "count" = Some (Num (Finite q)) -> (0 <= q)%Q ->
               o' !! jsstr "count" = Some (Num (Finite q))) /\
    (forall n, o !! jsstr "count" = Some (Num n) ->
               number_isNaN n = false -> number_negative n = false ->
               o' !! jsstr "count" = Some (Num n)) /\
    (o !! jsstr "count" = None \/
     o !! jsstr "count" = Some (Num NaN) \/
     (exists n, o !! jsstr "count" = Some (Num n) /\ number_negative n = true) \/
     (exists v, o !! jsstr "count" = Some v /\ typeof v <> TNumber) ->
     o' !! jsstr "count" = Some (Num (number_of_nat (length results)))) /\
    (forall s, o !! jsstr "count" = Some (Str s) ->
               o' !! jsstr "count" = Some (Num (number_of_nat (length results)))) /\
    o' !! jsstr "next" = Some (normalized_link (o !! jsstr "next")) /\
    o' !! jsstr "previous" = Some (normalized_link (o !! jsstr "previous")) /\
    (forall link, typeof (normalized_link link) = TString
                  \/ normalized_link link = Null) /\
    (forall k, k <> jsstr "count" -> k <> jsstr "next" ->
               k <> jsstr "previous" -> o' !! k = o !! k).
Proof.
  intros Hres. eexists. split; [by apply normalizeApiResponse_Obj|].
  assert (Hcount : forall v,
    (<[jsstr "previous" := normalized_link (o !! jsstr "previous")]>
       (<[jsstr "next" := normalized_link (o !! jsstr "next")]>
          (<[jsstr "count" := v]> o))) !! jsstr "count" = Some v).
  { intros v. rewrite !lookup_insert_ne by done. apply lookup_insert_eq. }
  repeat split.
  - intros q Hq Hpos. rewrite Hcount, Hq. simpl.
    apply number_negative_Finite in Hpos. simpl in Hpos. by rewrite Hpos.
  - intros n Hn Hnan Hneg. rewrite Hcount, Hn. simpl. by rewrite Hnan, Hneg.
  - intros [H | [H | [(n & H & Hn) | (v & H & Hv)]]];
      rewrite Hcount, H; simpl; try done.
    + by rewrite Hn, orb_true_r.
    + by destruct v.
  - intros s Hs. by rewrite Hcount, Hs.
  - rewrite lookup_insert_ne by done. apply lookup_insert_eq.
  - apply lookup_insert_eq.
  - intros [[]|]; simpl; eauto.
  - intros k H1 H2 H3. by rewrite !lookup_insert_ne by done.
Qed.

(** An instance: the body with two results and the count "7". *)
Lemma normalizeApiResponse_list_witness :
  exists o',
    normalizeApiResponse (Obj body_count_string) = Obj o' /\
    o' !! jsstr "count" = Some (Num (number_of_nat 2)) /\
    o' !! jsstr "next" = Some Null /\
    o' !! jsstr "previous" = Some Null.
Proof.
  destruct (normalizeApiResponse_list body_count_string
              [Num (number_of_nat 1); Num (number_of_nat 2)])
    as (o' & Ho' & _ & _ & _ & Hstr & Hnext & Hprev & _).
  - by vm_compute.
  - exists o'. split; [done|]. split; [|split].
    + apply (Hstr (jsstr "7")). by vm_compute.
    + rewrite Hnext. by vm_compute.
    + rewrite Hprev. by vm_compute.
Defined.

(** * The rate limiter ([RateLimiter.isAllowed]) *)

(** [isAllowed] in terms of the recorded times of the identity. *)
Lemma isAllowed_eq this identifier now :
  isAllowed this identifier now
  = let times := evict (now - windowMs this) (recorded this identifier) in
    if (Z.of_nat (length times) >=? maxRequests this)%Z
    then (false, store this identifier times)
    else (true, store this identifier (times ++ [now])).
Proof.
  unfold isAllowed, recorded, store. cbv zeta.
  case_bool_decide as Hin.
  - done.
  - rewrite lookup_insert_eq. cbn [default].
    assert (requests this !! identifier = None) as ->
      by (by apply eq_None_not_Some).
    cbn [default]. by rewrite !insert_insert_eq.
Qed.

Lemma recorded_store this identifier times id' :
  recorded (store this identifier times) id'
  = if decide (identifier = id') then times else recorded this id'.
Proof.
  unfold recorded, store. simpl. case_decide.
  - subst. by rewrite lookup_insert_eq.
  - by rewrite lookup_insert_ne.
Qed.

Lemma evict_length windowStart times :
  length (evict windowStart times) <= length times.
Proof.
  induction times as [|t times IH]; simpl; [done|].
  destruct (t <? windowStart)%Z; simpl; lia.
Qed.

Lemma evict_keeps windowStart times :
  Forall (fun t => (windowStart <= t)%Z) times -> evict windowStart times = times.
Proof.
  destruct 1 as [|t times Ht _]; simpl; [done|].
  by rewrite (proj2 (Z.ltb_ge _ _)).
Qed.

Lemma evict_oldest windowStart t times :
  (t < windowStart)%Z -> length (evict windowStart (t :: times)) <= length times.
Proof.
  intros Ht. simpl. rewrite (proj2 (Z.ltb_lt _ _)) by done. apply evict_length.
Qed.

Lemma evict_all windowStart times :
  Forall (fun t => (t < windowStart)%Z) times -> evict windowStart times = [].
Proof.
  induction 1 as [|t times Ht _ IH]; simpl; [done|].
  by rewrite (proj2 (Z.ltb_lt _ _)).
Qed.

Lemma calls_cons this identifier now later :
  calls this identifier (now :: later)
  = ((isAllowed this identifier now).1
       :: (calls (isAllowed this identifier now).2 identifier later).1,
     (calls (isAllowed this identifier now).2 identifier later).2).
Proof.
  change (calls this identifier (now :: later))
    with (let '(answer, this0) := isAllowed this identifier now in
          let '(answers, this1) := calls this0 identifier later in
          (answer :: answers, this1)).
  destruct (isAllowed this identifier now) as [answer this']. cbn [fst snd].
  by destruct (calls this' identifier later).
Qed.

(** After a call the identity has an entry in the map. *)
Lemma isAllowed_present this identifier now :
  requests (isAllowed this identifier now).2 !! identifier
  = Some (recorded (isAllowed this identifier now).2 identifier).
Proof.
  rewrite isAllowed_eq. cbv zeta. unfold recorded.
  case_match; simpl; by rewrite lookup_insert_eq.
Qed.

Lemma calls_present this identifier times :
  times <> [] ->
  requests (calls this identifier times).2 !! identifier
  = Some (recorded (calls this identifier times).2 identifier).
Proof.
  revert this. induction times as [|now later IH]; intros this Hne; [done|].
  rewrite calls_cons. cbn [snd].
  destruct later as [|t later']; [apply isAllowed_present|].
  by apply IH.
Qed.

(** Calls within one window, as long as there is room: each is admitted and
    recorded behind the earlier ones. *)
Lemma calls_in_window this identifier times :
  in_window (windowMs this) (recorded this identifier ++ times) ->
  (Z.of_nat (length (recorded this identifier ++ times)) <= maxRequests this)%Z ->
  (calls this identifier times).1 = repeat true (length times) /\
  recorded (calls this identifier times).2 identifier
    = recorded this identifier ++ times /\
  maxRequests (calls this identifier times).2 = maxRequests this /\
  windowMs (calls this identifier times).2 = windowMs this.
Proof.
  revert this. induction times as [|now later IH]; intros this Hwin Hlen.
  - simpl. by rewrite app_nil_r.
  - rewrite calls_cons. cbn [fst snd].
    assert (Hcall : isAllowed this identifier now
              = (true, store this identifier (recorded this identifier ++ [now]))).
    { rewrite isAllowed_eq. cbv zeta.
      rewrite evict_keeps; cycle 1.
      { apply Forall_forall. intros t Ht. apply Hwin; rewrite elem_of_app, ?list_elem_of_singleton, ?elem_of_cons; auto. }
      rewrite length_app in Hlen. simpl in Hlen.
      by destruct (Z.geb_spec (Z.of_nat (length (recorded this identifier)))
                     (maxRequests this)) as [?|_]; [lia|]. }
    rewrite Hcall. cbn [fst snd].
    set (this' := store this identifier (recorded this identifier ++ [now])).
    assert (Hrec : recorded this' identifier = recorded this identifier ++ [now]).
    { unfold this'. rewrite recorded_store. by rewrite decide_True. }
    destruct (IH this') as (IH1 & IH2 & IH3 & IH4).
    { by rewrite Hrec, <- app_assoc. }
    { by rewrite Hrec, <- app_assoc. }
    rewrite IH1, IH2, IH3, IH4, Hrec, <- app_assoc. done.
Qed.

(** A full window refuses the next call and records nothing. *)
Lemma isAllowed_full this identifier now :
  Forall (fun t => (now - windowMs this <= t)%Z) (recorded this identifier) ->
  (maxRequests this <= Z.of_nat (length (recorded this identifier)))%Z ->
  requests this !! identifier = Some (recorded this identifier) ->
  isAllowed this identifier now = (false, this).
Proof.
  intros Hwin Hfull Hpresent. rewrite isAllowed_eq. cbv zeta.
  rewrite evict_keeps by done.
  destruct (Z.geb_spec (Z.of_nat (length (recorded this identifier)))
              (maxRequests this)) as [_|?]; [|lia].
  f_equal. unfold store. rewrite insert_id by done. by destruct this.
Qed.

(** Once the oldest recorded time is before the start of the window, a
    limiter that holds no more than its maximum admits the call. *)
Lemma isAllowed_after_oldest this identifier now oldest times :
  recorded this identifier = oldest :: times ->
  (Z.of_nat (length (oldest :: times)) <= maxRequests this)%Z ->
  (oldest < now - windowMs this)%Z ->
  (isAllowed this identifier now).1 = true.
Proof.
  intros Hrec Hlen Hold. rewrite isAllowed_eq. cbv zeta. rewrite Hrec.
  pose proof (evict_oldest _ _ times Hold) as Hev. simpl in Hlen.
  by destruct (Z.geb_spec
                 (Z.of_nat (length (evict (now - windowMs this) (oldest :: times))))
                 (maxRequests this)) as [?|_]; [lia|].
Qed.

(** A call for one identity leaves the entry of every other identity as it
    is. *)
Lemma isAllowed_other this a b now :
  a <> b ->
  requests (isAllowed this a now).2 !! b = requests this !! b.
Proof.
  intros Hab. rewrite isAllowed_eq. cbv zeta.
  case_match; simpl; by rewrite lookup_insert_ne.
Qed.

Lemma isAllowed_config this identifier now :
  maxRequests (isAllowed this identifier now).2 = maxRequests this /\
  windowMs (isAllowed this identifier now).2 = windowMs this.
Proof. rewrite isAllowed_eq. cbv zeta. by case_match. Qed.

Lemma calls_other this a b times :
  a <> b ->
  requests (calls this a times).2 !! b = requests this !! b /\
  maxRequests (calls this a times).2 = maxRequests this.
Proof.
  intros Hab. revert this. induction times as [|now later IH]; intros this.
  - done.
  - rewrite calls_cons. cbn [snd].
    destruct (IH (isAllowed this a now).2) as [-> ->].
    rewrite isAllowed_other by done.
    by destruct (isAllowed_config this a now) as [-> _].
Qed.

(** The first call of an identity the limiter has not seen is admitted. *)
Lemma isAllowed_first this identifier now :
  requests this !! identifier = None ->
  (0 < maxRequests this)%Z ->
  (isAllowed this identifier now).1 = true.
Proof.
  intros Hnone Hmax. rewrite isAllowed_eq. cbv zeta.
  unfold recorded. rewrite Hnone. cbn [default evict length].
  by destruct (Z.geb_spec (Z.of_nat 0) (maxRequests this)) as [?|_]; [lia|].
Qed.

Lemma in_window_take windowMs times k :
  in_window windowMs times -> in_window windowMs (take k times).
Proof.
  intros Hwin t t' Ht Ht'. apply Hwin; by eapply subseteq_take.
Qed.

Lemma in_window_repeat windowMs t n :
  (0 <= windowMs)%Z -> in_window windowMs (repeat t n).
Proof.
  intros Hw a b Ha%list_elem_of_In%repeat_spec Hb%list_elem_of_In%repeat_spec.
  lia.
Qed.

Lemma Forall_repeat {A} (P : A -> Prop) x n : P x -> Forall P (repeat x n).
Proof.
  intros Hx. apply Forall_forall.
  by intros y ->%list_elem_of_In%repeat_spec.
Qed.

(** A fresh limiter with the default configuration, during one window. *)
Lemma fresh_window identifier times :
  length times <= 100 ->
  in_window RATE_LIMIT_WINDOW_MS times ->
  let limiter := new_RateLimiter RATE_LIMIT_REQUESTS RATE_LIMIT_WINDOW_MS in
  (calls limiter identifier times).1 = repeat true (length times) /\
  recorded (calls limiter identifier times).2 identifier = times /\
  maxRequests (calls limiter identifier times).2 = 100%Z /\
  windowMs (calls limiter identifier times).2 = 60000%Z.
Proof.
  intros Hlen Hwin limiter.
  assert (Hfresh : recorded limiter identifier = []).
  { unfold recorded, limiter. simpl. by rewrite lookup_empty. }
  destruct (calls_in_window limiter identifier times) as (H1 & H2 & H3 & H4).
  - by rewrite Hfresh.
  - rewrite Hfresh. simpl. unfold RATE_LIMIT_REQUESTS. lia.
  - by rewrite Hfresh in H2.
Qed.

Lemma full_window identifier times now :
  length times = 100 ->
  in_window RATE_LIMIT_WINDOW_MS times ->
  Forall (fun t => (now - RATE_LIMIT_WINDOW_MS <= t)%Z) times ->
  let limiter := new_RateLimiter RATE_LIMIT_REQUESTS RATE_LIMIT_WINDOW_MS in
  let full := (calls limiter identifier times).2 in
  (calls limiter identifier times).1 = repeat true 100 /\
  isAllowed full identifier now = (false, full).
Proof.
  intros Hlen Hwin Hnow limiter full.
  destruct (fresh_window identifier times) as (Hans & Hrec & Hmax & Hwms);
    [lia|done|].
  fold limiter full in Hans, Hrec, Hmax, Hwms.
  split; [by rewrite Hans, Hlen|].
  apply isAllowed_full.
  - by rewrite Hrec, Hwms.
  - rewrite Hrec, Hmax. lia.
  - unfold full. rewrite calls_present; [by f_equal|].
    intros ->. done.
Qed.

Lemma in_window_times_all windowStart times :
  Forall (fun t => (windowStart <= t)%Z) times ->
  in_window_times windowStart times = times.
Proof.
  unfold in_window_times. induction 1 as [|t times Ht _ IH]; [done|].
  by rewrite filter_cons_True, IH.
Qed.

Lemma in_window_times_within windowStart times :
  Forall (fun t => (windowStart <= t)%Z) (in_window_times windowStart times).
Proof.
  unfold in_window_times. induction times as [|t times IH]; [constructor|].
  rewrite filter_cons. case_decide; [by constructor|done].
Qed.

(** On times in order the loop removes exactly the times before the start
    of the window. *)
Lemma evict_sorted windowStart times :
  StronglySorted Z.le times ->
  evict windowStart times = in_window_times windowStart times.
Proof.
  unfold in_window_times.
  induction 1 as [|t times Hsorted IH Hall]; simpl; [done|].
  rewrite filter_cons. destruct (Z.ltb_spec t windowStart).
  - rewrite decide_False by lia. done.
  - rewrite decide_True by done. f_equal.
    symmetry. apply (in_window_times_all windowStart).
    eapply Forall_impl; [exact Hall|]. simpl. intros. lia.
Qed.

Lemma in_window_Forall windowMs times :
  Forall (fun t => Forall (fun t' => (t' - windowMs <= t)%Z) times) times ->
  in_window windowMs times.
Proof.
  intros H t t' Ht Ht'. rewrite Forall_forall in H.
  specialize (H t Ht). rewrite Forall_forall in H. by apply H.
Qed.

(** C3 as the specification has it: when at least [windowMs] milliseconds
    have passed since the oldest recorded time, the next call is admitted.
    After 100 admitted calls at the time 1000000, the call at the time
    1060000, which is 60000 ms later, is refused: the oldest time is not
    before the start of the window, so it is not evicted. *)
Lemma isAllowed_refused_at_window_edge :
  let limiter := new_RateLimiter RATE_LIMIT_REQUESTS RATE_LIMIT_WINDOW_MS in
  let hundred := calls limiter (jsstr "client") (repeat 1000000%Z 100) in
  hundred.1 = repeat true 100 /\
  head (recorded hundred.2 (jsstr "client")) = Some 1000000%Z /\
  (1060000 - 1000000 >= RATE_LIMIT_WINDOW_MS)%Z /\
  (isAllowed hundred.2 (jsstr "client") 1060000).1 = false.
Proof. by vm_compute. Qed.

(** C3, amended: with 100 requests per 60000 ms and one identity, whose
    calls are made at times in order (the clock does not go back): each of
    the first 100 calls within a window is admitted and its time recorded, so
    that the oldest recorded time is the first one; a further call made no
    more than 60000 ms after the oldest recorded time is refused and leaves
    the limiter as it was; a further call made more than 60000 ms after the
    oldest recorded time is admitted, and the times recorded afterwards are
    exactly the earlier ones that are not before the start of its window,
    followed by its own: every time older than that has been evicted. *)
Theorem rate_window (identifier : jsstring) (times : list Z) (now : Z) :
  length times = 100 ->
  StronglySorted Z.le times ->
  in_window RATE_LIMIT_WINDOW_MS times ->
  let limiter := new_RateLimiter RATE_LIMIT_REQUESTS RATE_LIMIT_WINDOW_MS in
  let full := (calls limiter identifier times).2 in
  (forall k, k <= 100 ->
     (calls limiter identifier (take k times)).1 = repeat true k /\
     recorded (calls limiter identifier (take k times)).2 identifier
       = take k times) /\
  (calls limiter identifier times).1 = repeat true 100 /\
  recorded full identifier = times /\
  (exists oldest,
     head times = Some oldest /\
     Forall (fun t => (oldest <= t)%Z) times /\
     ((now <= oldest + RATE_LIMIT_WINDOW_MS)%Z ->
      isAllowed full identifier now = (false, full)) /\
     ((oldest + RATE_LIMIT_WINDOW_MS < now)%Z ->
      (isAllowed full identifier now).1 = true /\
      recorded (isAllowed full identifier now).2 identifier
        = in_window_times (now - RATE_LIMIT_WINDOW_MS) times ++ [now] /\
      Forall (fun t => (now - RATE_LIMIT_WINDOW_MS <= t)%Z)
        (recorded (isAllowed full identifier now).2 identifier))).
Proof.
  intros Hlen Hsorted Hwin limiter full.
  destruct (fresh_window identifier times) as (Hans & Hrec & Hmax & Hwms);
    [lia|done|].
  fold limiter full in Hans, Hrec, Hmax, Hwms.
  split; [|split; [|split]].
  - intros k Hk.
    destruct (fresh_window identifier (take k times)) as (H1 & H2 & _).
    + rewrite length_take. lia.
    + by apply in_window_take.
    + rewrite length_take in H1.
      by replace (k `min` length times) with k in H1 by lia.
  - by rewrite Hans, Hlen.
  - done.
  - destruct times as [|oldest times']; [done|].
    exists oldest. split; [done|].
    assert (Hmin : Forall (fun t => (oldest <= t)%Z) (oldest :: times')).
    { apply StronglySorted_inv in Hsorted as [_ Hall].
      constructor; [lia|done]. }
    split; [done|]. split.
    + intros Hnow.
      destruct (full_window identifier (oldest :: times') now Hlen Hwin)
        as [_ Hfull]; [|done].
      eapply Forall_impl; [exact Hmin|]. simpl. intros t Ht. lia.
    + intros Hnow.
      assert (Hafter :
        isAllowed full identifier now
        = (true, store full identifier
                   (in_window_times (now - RATE_LIMIT_WINDOW_MS)
                      (oldest :: times') ++ [now]))).
      { rewrite isAllowed_eq. cbv zeta. rewrite Hrec, Hwms, Hmax.
        change 60000%Z with RATE_LIMIT_WINDOW_MS.
        rewrite evict_sorted by done.
        assert (length (in_window_times (now - RATE_LIMIT_WINDOW_MS)
                          (oldest :: times')) < 100) as Hshort.
        { rewrite <- Hlen. unfold in_window_times.
          apply (length_filter_lt _ _ oldest); [left|lia]. }
        destruct (Z.geb_spec
                    (Z.of_nat (length (in_window_times
                                         (now - RATE_LIMIT_WINDOW_MS)
                                         (oldest :: times'))))
                    100); [lia|done]. }
      rewrite Hafter. cbn [fst snd]. rewrite recorded_store, decide_True by done.
      split; [done|]. split; [done|].
      apply Forall_app. split.
      * apply in_window_times_within.
      * constructor; [|done]. unfold RATE_LIMIT_WINDOW_MS. lia.
Qed.

(** An instance: 50 calls at the time 1000000 and 50 at the time 1030000;
    a further call at the time 1060000 is refused, one at the time 1060001
    is admitted and leaves the 50 times 1030000 and its own. *)
Lemma rate_window_witness :
  let limiter := new_RateLimiter RATE_LIMIT_REQUESTS RATE_LIMIT_WINDOW_MS in
  let times := repeat 1000000%Z 50 ++ repeat 1030000%Z 50 in
  let full := (calls limiter (jsstr "client") times).2 in
  (calls limiter (jsstr "client") times).1 = repeat true 100 /\
  isAllowed full (jsstr "client") 1060000 = (false, full) /\
  (isAllowed full (jsstr "client") 1060001).1 = true /\
  recorded (isAllowed full (jsstr "client") 1060001).2 (jsstr "client")
    = repeat 1030000%Z 50 ++ [1060001%Z].
Proof.
  intros limiter times full.
  assert (Hlen : length times = 100) by reflexivity.
  assert (Hsorted : StronglySorted Z.le times)
    by (apply (bool_decide_unpack _); by vm_compute).
  assert (Hwin : in_window RATE_LIMIT_WINDOW_MS times)
    by (apply in_window_Forall, (bool_decide_unpack _); by vm_compute).
  destruct (rate_window (jsstr "client") times 1060000 Hlen Hsorted Hwin)
    as (_ & Hanswers & _ & oldest & Hhead & _ & Hrefused & _).
  destruct (rate_window (jsstr "client") times 1060001 Hlen Hsorted Hwin)
    as (_ & _ & _ & oldest' & Hhead' & _ & _ & Hadmitted).
  injection Hhead as <-. injection Hhead' as <-.
  split; [exact Hanswers|].
  split; [apply Hrefused; by vm_compute|].
  destruct Hadmitted as (Htrue & Hrecorded & _); [by vm_compute|].
  split; [exact Htrue|]. etrans; [exact Hrecorded|]. by vm_compute.
Defined.

(** C8 (the rate window of an identity is its own): a call for one identity
    leaves the recorded times of every other identity as they are; so after
    any calls for an identity A, among them 100 admitted calls that use up
    its quota, the first call of another identity B is admitted. *)
Theorem rate_limit_per_identity :
  (forall this a b now,
     a <> b ->
     requests (isAllowed this a now).2 !! b = requests this !! b /\
     recorded (isAllowed this a now).2 b = recorded this b) /\
  (forall a b times now,
     a <> b ->
     let limiter := new_RateLimiter RATE_LIMIT_REQUESTS RATE_LIMIT_WINDOW_MS in
     (isAllowed (calls limiter a times).2 b now).1 = true) /\
  (forall a b times now now',
     a <> b ->
     length times = 100 ->
     in_window RATE_LIMIT_WINDOW_MS times ->
     Forall (fun t => (now - RATE_LIMIT_WINDOW_MS <= t)%Z) times ->
     let limiter := new_RateLimiter RATE_LIMIT_REQUESTS RATE_LIMIT_WINDOW_MS in
     let exhausted := (calls limiter a times).2 in
     (calls limiter a times).1 = repeat true 100 /\
     (isAllowed exhausted a now).1 = false /\
     (isAllowed exhausted b now').1 = true).
Proof.
  assert (Hfirst : forall a b times now,
     a <> b ->
     let limiter := new_RateLimiter RATE_LIMIT_REQUESTS RATE_LIMIT_WINDOW_MS in
     (isAllowed (calls limiter a times).2 b now).1 = true).
  { intros a b times now Hab limiter.
    destruct (calls_other limiter a b times Hab) as [Hreq Hmax].
    apply isAllowed_first.
    - by rewrite Hreq.
    - by rewrite Hmax. }
  split; [|split; [done|]].
  - intros this a b now Hab. unfold recorded.
    by rewrite isAllowed_other.
  - intros a b times now now' Hab Hlen Hwin Hnow limiter exhausted.
    destruct (full_window a times now Hlen Hwin Hnow) as (H1 & H2).
    split; [done|]. split; [|by apply Hfirst].
    fold limiter exhausted in H2. by rewrite H2.
Qed.

(** An instance: the identities A and B. *)
Lemma rate_limit_per_identity_witness :
  let limiter := new_RateLimiter RATE_LIMIT_REQUESTS RATE_LIMIT_WINDOW_MS in
  let exhausted := (calls limiter (jsstr "A") (repeat 1000000%Z 100)).2 in
  ((calls limiter (jsstr "A") (repeat 1000000%Z 100)).1 = repeat true 100 /\
   (isAllowed exhausted (jsstr "A") 1000000).1 = false /\
   (isAllowed exhausted (jsstr "B") 1000000).1 = true) /\
  requests (isAllowed exhausted (jsstr "A") 1000000).2 !! jsstr "B"
    = requests exhausted !! jsstr "B".
Proof.
  intros limiter exhausted. split.
  - apply (proj2 (proj2 rate_limit_per_identity)
             (jsstr "A") (jsstr "B") (repeat 1000000%Z 100) 1000000%Z 1000000%Z).
    + discriminate.
    + reflexivity.
    + apply in_window_repeat. by vm_compute.
    + apply Forall_repeat. by vm_compute.
  - apply (proj1 rate_limit_per_identity). discriminate.
Defined.

(** * The request helper ([makeCourtListenerRequest]) *)

Ltac run_step :=
  cbv beta iota zeta delta
    [async try_catch bind when ret return_ console_error await
     rateLimiter_isAllowed negb andb fst snd logged limited].

Section Helper.

Variables (env : environment) (endpoint : jsstring)
          (params : gmap jsstring jsval) (authToken : option jsstring).

Local Abbreviation run :=
  (makeCourtListenerRequest env endpoint params authToken).

(** A credential that is present and malformed: the helper returns at the
    first check. *)
Lemma run_malformed w :
  validateApiToken authToken = false ->
  run w = (Fulfilled Null,
           logged w (jsstr "Invalid API token format provided")).
Proof.
  intros Hbad.
  assert (present authToken = true) as Hpresent.
  { unfold validateApiToken in Hbad. by destruct (present authToken). }
  unfold makeCourtListenerRequest, makeCourtListenerRequest_body.
  rewrite Hpresent, Hbad. by run_step.
Qed.

(** Past the first check the helper asks the limiter, and returns when the
    limiter refuses. *)
Lemma run_refused w :
  validateApiToken authToken = true ->
  (isAllowed (rateLimiter w) (clientId_of authToken) (Date_now env)).1 = false ->
  run w = (Fulfilled Null,
           logged (limited env authToken w)
             (jsstr "Rate limit exceeded for client")).
Proof.
  intros Hgood Hrefused.
  unfold makeCourtListenerRequest, makeCourtListenerRequest_body.
  rewrite Hgood, andb_false_r. run_step.
  fold (clientId_of authToken).
  destruct (isAllowed (rateLimiter w) (clientId_of authToken) (Date_now env))
    as [allowed limiter].
  simpl in Hrefused. subst allowed. by run_step.
Qed.

(** Past both checks the helper calls [fetch]; what it returns then depends
    on the answer only. *)
Lemma run_fetched w :
  validateApiToken authToken = true ->
  (isAllowed (rateLimiter w) (clientId_of authToken) (Date_now env)).1 = true ->
  run w =
  match answer_of (fetch env (outgoing_request endpoint params authToken))
  with
  | (v, Some line) => (Fulfilled v, logged (limited env authToken w) line)
  | (v, None) => (Fulfilled v, limited env authToken w)
  end.
Proof.
  intros Hgood Hallowed.
  unfold makeCourtListenerRequest, makeCourtListenerRequest_body.
  rewrite Hgood, andb_false_r. run_step.
  fold (clientId_of authToken).
  destruct (isAllowed (rateLimiter w) (clientId_of authToken) (Date_now env))
    as [allowed limiter].
  simpl in Hallowed. subst allowed. run_step.
  match goal with
  | |- context [fetch env ?r] =>
      change r with (outgoing_request endpoint params authToken)
  end.
  destruct (fetch env (outgoing_request endpoint params authToken))
    as [[name message|v]|resp]; cbn [answer_of error_line].
  - by case_bool_decide.
  - done.
  - destruct (ok resp); run_step.
    + destruct (json resp) as [[name message|v]|data]; cbn [error_line];
        [by case_bool_decide|done|done].
    + unfold status_line.
      destruct (status resp =? 401)%Z; [by run_step|].
      destruct (status resp =? 429)%Z; [by run_step|].
      destruct (status resp >=? 500)%Z; by run_step.
Qed.

End Helper.

(** C4 (all failures look the same): on a malformed credential, a refusal
    by the rate limiter, a network error, a timeout, a response whose status
    is not a success, and a body that is not JSON, the promise of
    [makeCourtListenerRequest] is fulfilled with [null], which carries
    neither a status code nor an error; and the promise is never rejected,
    whatever the inputs, so no exception reaches the caller. *)
Theorem makeCourtListenerRequest_unavailable :
  (forall env endpoint params authToken w,
     failure env endpoint params authToken w ->
     (makeCourtListenerRequest env endpoint params authToken w).1
       = Fulfilled Null) /\
  (forall env endpoint params authToken w,
     exists v,
       (makeCourtListenerRequest env endpoint params authToken w).1
         = Fulfilled v).
Proof.
  split; intros env endpoint params authToken w.
  - intros Hfail.
    destruct (validateApiToken authToken) eqn:Hvalid;
      [|by rewrite run_malformed].
    destruct (isAllowed (rateLimiter w) (clientId_of authToken) (Date_now env)).1
      eqn:Hallowed; [|by rewrite run_refused].
    rewrite run_fetched by done.
    destruct Hfail
      as [H|H|name message Hname H|message H|resp H Hok|resp e H Hjson];
      try congruence; rewrite H; cbn [answer_of]; try done.
    + by rewrite Hok.
    + rewrite Hjson. by destruct (ok resp).
  - destruct (validateApiToken authToken) eqn:Hvalid;
      [|rewrite run_malformed by done; by exists Null].
    destruct (isAllowed (rateLimiter w) (clientId_of authToken) (Date_now env)).1
      eqn:Hallowed; [|rewrite run_refused by done; by exists Null].
    rewrite run_fetched by done.
    destruct (answer_of _) as [v [line|]]; by exists v.
Qed.

(** An instance of each of the six failures. *)
Lemma makeCourtListenerRequest_unavailable_witness :
  let value_of env authToken w :=
    (makeCourtListenerRequest env (jsstr "/courts/") ∅
       authToken w).1 in
  value_of (env_answering network_down) (Some (jsstr "not-a-token")) fresh_world
    = Fulfilled Null /\
  value_of (env_answering network_down) None exhausted_world = Fulfilled Null /\
  value_of (env_answering network_down) None fresh_world = Fulfilled Null /\
  value_of (env_answering timed_out) None fresh_world = Fulfilled Null /\
  value_of (env_answering server_error) None fresh_world = Fulfilled Null /\
  value_of (env_answering invalid_body) None fresh_world = Fulfilled Null.
Proof.
  pose proof (proj1 makeCourtListenerRequest_unavailable) as Hnull.
  cbv zeta.
  refine (conj (Hnull _ _ _ _ _ _) (conj (Hnull _ _ _ _ _ _)
           (conj (Hnull _ _ _ _ _ _) (conj (Hnull _ _ _ _ _ _)
             (conj (Hnull _ _ _ _ _ _) (Hnull _ _ _ _ _ _)))))).
  - apply MalformedCredential. by vm_compute.
  - apply RateLimitExceeded. by vm_compute.
  - apply (NetworkError _ _ _ _ _ (jsstr "TypeError") (jsstr "fetch failed"));
      [discriminate | reflexivity].
  - by eapply TimedOut.
  - by eapply HttpStatus.
  - by eapply InvalidJson.
Defined.

(** C10 (a malformed credential costs no quota): with a credential that is
    present and does not have the format, [makeCourtListenerRequest] returns
    [null] at its first check; the rate limiter is the one it was before the
    call, so no identity has a time recorded for the attempt, and neither
    the clock nor [fetch] has any part in the result. *)
Theorem makeCourtListenerRequest_malformed_credential
    env endpoint params (token : jsstring) w :
  validateApiToken (Some token) = false ->
  let result :=
    makeCourtListenerRequest env endpoint params (Some token) w in
  token <> [] /\
  result.1 = Fulfilled Null /\
  rateLimiter result.2 = rateLimiter w /\
  (forall identity,
     requests (rateLimiter result.2) !! identity
       = requests (rateLimiter w) !! identity) /\
  recorded (rateLimiter result.2) (clientId_of (Some token))
    = recorded (rateLimiter w) (clientId_of (Some token)) /\
  console result.2
    = console w ++ [jsstr "Invalid API token format provided"] /\
  (forall env',
     makeCourtListenerRequest env' endpoint params (Some token) w
       = result).
Proof.
  intros Hbad result. unfold result.
  rewrite run_malformed by done. simpl.
  repeat split; try done.
  - intros ->. done.
  - intros env'. by rewrite run_malformed.
Qed.

(** An instance: the credential [not-a-token], with a limiter whose anonymous
    identity is at its limit. *)
Lemma makeCourtListenerRequest_malformed_credential_witness :
  let result :=
    makeCourtListenerRequest (env_answering server_error)
      (jsstr "/courts/") ∅ (Some (jsstr "not-a-token")) exhausted_world in
  result.1 = Fulfilled Null /\
  rateLimiter result.2 = rateLimiter exhausted_world.
Proof.
  destruct (makeCourtListenerRequest_malformed_credential
              (env_answering server_error) (jsstr "/courts/") ∅
              (jsstr "not-a-token") exhausted_world)
    as (_ & Hnull & Hlimiter & _).
  - by vm_compute.
  - by split.
Defined.

(** * Further properties of the sanitizer *)

(** X1 ([sanitizeString]): whatever the input, the result has none of the
    five dangerous characters and at most 1000 code units. *)
Theorem sanitizeString_characters_and_length (input : jsstring) :
  Forall (fun x => dangerous x = false) (sanitizeString input) /\
  length (sanitizeString input) <= MAX_STRING_LENGTH.
Proof.
  split.
  - apply Forall_forall. intros x. apply sanitizeString_no_dangerous.
  - apply sanitizeString_length.
Qed.

Lemma inert_spec x :
  inert x = true ->
  dangerous x = false /\ Forall (fun p => chr_i p x = false) pattern_letters.
Proof.
  unfold inert. rewrite andb_true_iff, negb_true_iff, forallb_forall.
  intros [Hd Hl]. split; [done|].
  apply Forall_forall. intros p Hp%list_elem_of_In%Hl.
  by apply negb_true_iff.
Qed.

Lemma inert_lacks p s :
  p ∈ pattern_letters ->
  Forall (fun x => inert x = true) s -> Forall (fun x => chr_i p x = false) s.
Proof.
  intros Hp Hs. eapply Forall_impl; [exact Hs|].
  intros x [_ Hl]%inert_spec. rewrite Forall_forall in Hl. by apply Hl.
Qed.

(** A pattern that begins with one of the first letters does nothing to an
    inert text. *)
Lemma replace_inert p r rep s :
  p ∈ pattern_letters ->
  Forall (fun x => inert x = true) s ->
  replace (Cls (chr_i p) One :: r) rep s = s.
Proof.
  intros Hp Hs.
  apply (replace_unmatched [] (Cls (chr_i p) One) (chr_i p) r); [by left|].
  by apply inert_lacks.
Qed.

Lemma sanitizeString_inert_stages s :
  Forall (fun x => inert x = true) s ->
  later_stages (replace re_dangerous [] s) = s.
Proof.
  intros Hs.
  assert (Hd : replace re_dangerous [] s = s).
  { apply (replace_unmatched [] (Cls dangerous One) dangerous []); [by left|].
    eapply Forall_impl; [exact Hs|]. by intros x [? _]%inert_spec. }
  rewrite Hd. unfold later_stages.
  assert (Hin : forall p, p ∈ pattern_letters ->
            forall r rep, replace (Cls (chr_i p) One :: r) rep s = s)
    by (intros; by apply replace_inert).
  change re_javascript with (Cls (chr_i 106) One :: lit_i (jsstr "avascript:")).
  rewrite Hin by (unfold pattern_letters; set_solver).
  change re_data with (Cls (chr_i 100) One :: lit_i (jsstr "ata:")).
  rewrite Hin by (unfold pattern_letters; set_solver).
  change re_vbscript with (Cls (chr_i 118) One :: lit_i (jsstr "bscript:")).
  rewrite Hin by (unfold pattern_letters; set_solver).
  change re_handler
    with (Cls (chr_i 111) One
            :: (lit_i (jsstr "n")
                  ++ [Cls cls_w Plus; Cls cls_s Star; Cls (chr_i 61) One])).
  rewrite Hin by (unfold pattern_letters; set_solver).
  change re_password
    with (Cls (chr_i 112) One :: (lit_i (jsstr "assword") ++ [Cls cls_d Star])).
  rewrite Hin by (unfold pattern_letters; set_solver).
  change re_secret
    with (Cls (chr_i 115) One :: (lit_i (jsstr "ecret") ++ [Cls cls_d Star])).
  rewrite Hin by (unfold pattern_letters; set_solver).
  change re_token
    with (Cls (chr_i 116) One :: (lit_i (jsstr "oken") ++ [Cls cls_d Star])).
  rewrite Hin by (unfold pattern_letters; set_solver).
  change re_key
    with (Cls (chr_i 107) One :: (lit_i (jsstr "ey") ++ [Cls cls_d Star])).
  by rewrite Hin by (unfold pattern_letters; set_solver).
Qed.

Lemma chr_i_outside_letters p x :
  is_upper (Canonicalize p) = true ->
  Canonicalize x = x ->
  (x < 65 \/ 90 < x)%N ->
  chr_i p x = false.
Proof.
  unfold chr_i. intros Hp -> Hx. generalize dependent (Canonicalize p).
  intros u Hu. unfold is_upper in Hu.
  apply andb_true_iff in Hu as [H1%N.leb_le H2%N.leb_le].
  apply N.eqb_neq. lia.
Qed.

Lemma inert_intro x :
  dangerous x = false ->
  Canonicalize x = x ->
  (x < 65 \/ 90 < x)%N ->
  inert x = true.
Proof.
  intros Hd Hc Hx. unfold inert. rewrite Hd. cbn [negb andb].
  apply forallb_forall. intros p Hp. apply negb_true_iff.
  apply chr_i_outside_letters; [|done|done].
  unfold pattern_letters in Hp. simpl in Hp.
  destruct_or?; subst; done.
Qed.

Lemma inert_non_ascii x : (128 <= x)%N -> inert x = true.
Proof.
  intros Hx. apply inert_intro.
  - unfold dangerous, one_of, existsb.
    rewrite !orb_false_iff, !N.eqb_neq. lia.
  - unfold Canonicalize, is_lower.
    destruct (97 <=? x)%N eqn:H1, (x <=? 122)%N eqn:H2; simpl; try done.
    apply N.leb_le in H2. lia.
  - lia.
Qed.

Lemma inert_digit x : is_digit x = true -> inert x = true.
Proof.
  unfold is_digit. intros [H1%N.leb_le H2%N.leb_le]%andb_true_iff.
  apply inert_intro.
  - unfold dangerous, one_of, existsb.
    rewrite !orb_false_iff, !N.eqb_neq. lia.
  - unfold Canonicalize, is_lower.
    destruct (97 <=? x)%N eqn:H3; simpl; try done.
    apply N.leb_le in H3. lia.
  - lia.
Qed.

Lemma sanitizeString_inert_take input :
  Forall (fun x => inert x = true) input ->
  sanitizeString input = take MAX_STRING_LENGTH input.
Proof.
  intros Hs. by rewrite sanitizeString_stages, sanitizeString_inert_stages.
Qed.

(** X2 ([sanitizeString]): a text in which no character is one of the five
    dangerous ones or one of the letters j, d, v, o, p, s, t, k (in either
    case) is only truncated: it comes back as its first 1000 code units, and
    unchanged when it has no more than that.  Digits and all code units from
    128 on are of this kind, as are the other letters, spaces and the rest of
    the punctuation. *)
Theorem sanitizeString_inert (input : jsstring) :
  Forall (fun x => inert x = true) input ->
  sanitizeString input = take MAX_STRING_LENGTH input /\
  (length input <= MAX_STRING_LENGTH -> sanitizeString input = input).
Proof.
  intros Hs. split; [by apply sanitizeString_inert_take|].
  intros Hlen. rewrite sanitizeString_inert_take by done. by apply take_ge.
Qed.

(** An instance: a docket number with spaces and a non-ASCII letter. *)
Lemma sanitizeString_inert_witness :
  sanitizeString (jsstr "1:21-cr-00175 " ++ [233%N])
  = jsstr "1:21-cr-00175 " ++ [233%N].
Proof.
  apply (proj2 (sanitizeString_inert (jsstr "1:21-cr-00175 " ++ [233%N])
                  ltac:(by repeat constructor))).
  vm_compute. lia.
Defined.

(** * The input schemas *)

(** A pattern without [*] and [+] consumes a fixed number of characters,
    each within the classes of the pattern. *)
Lemma times_consumes (P : N -> Prop) c n (k : cont) : forall i s e,
  (forall x, c x = true -> P x) ->
  times c n k i s = Some e ->
  exists s1 s2, s = s1 ++ s2 /\ length s1 = n /\ Forall P s1 /\
                k (i + n) s2 = Some e.
Proof.
  induction n as [|n IH]; intros i s e Hc H; simpl in H.
  - exists [], s. rewrite Nat.add_0_r. by repeat split.
  - destruct s as [|x s]; [done|]. destruct (c x) eqn:Hx; [|done].
    destruct (IH _ _ _ Hc H) as (s1 & s2 & -> & Hlen & HP & Hk).
    exists (x :: s1), s2. repeat split; simpl; auto.
    by replace (i + S n) with (S i + n) by lia.
Qed.

(** Up to [$], a pattern without [*] and [+] consumes the whole rest of the
    input. *)
Lemma matcher_to_end (P : N -> Prop) r : forall n (k : cont) i t e,
  width r = Some n ->
  classes_within P r ->
  matcher (r ++ [Eol]) k i t = Some e ->
  length t = n /\ Forall P t.
Proof.
  induction r as [|[c q| |] r IH]; intros n k i t e Hw Hcls H.
  - simpl in *. destruct t; [|done]. by simplify_eq.
  - inversion_clear Hcls as [|? ? Hc Hr]. destruct q; simpl in Hw; try done.
    + destruct (width r) as [m|] eqn:Hm; [|done]. simpl in Hw. simplify_eq.
      simpl in H. destruct t as [|x t]; [done|].
      destruct (c x) eqn:Hx; [|done].
      destruct (IH _ _ _ _ _ eq_refl Hr H) as [Hlen HP].
      split; simpl; auto.
    + destruct (width r) as [m|] eqn:Hm; [|done]. simpl in Hw. simplify_eq.
      simpl in H.
      destruct (times_consumes P c n0 _ _ _ _ Hc H)
        as (s1 & t2 & -> & Hlen1 & HP1 & Hk1).
      destruct (IH _ _ _ _ _ eq_refl Hr Hk1) as [Hlen2 HP2].
      rewrite length_app. split; [lia|by apply Forall_app].
  - inversion_clear Hcls. simpl in Hw, H. destruct (i =? 0); [|done]. eauto.
  - inversion_clear Hcls. simpl in Hw, H. destruct t; [|done]. eauto.
Qed.

(** A string that an anchored pattern of fixed width accepts has that many
    characters, each within the classes of the pattern. *)
Lemma test_anchored (P : N -> Prop) r n s :
  width r = Some n ->
  classes_within P r ->
  test (Bol :: r ++ [Eol]) s = true ->
  length s = n /\ Forall P s.
Proof.
  intros Hw Hcls Htest.
  assert (Hm : exists e, match_at (Bol :: r ++ [Eol]) 0 s = Some e).
  { unfold test in Htest. destruct s as [|x s]; cbn [test_from] in Htest.
    - destruct (match_at _ 0 []); [eauto|done].
    - destruct (match_at _ 0 (x :: s)); [eauto|].
      by rewrite (test_from_Bol (r ++ [Eol]) s 1) in Htest by lia. }
  destruct Hm as [e Hm]. unfold match_at in Hm. cbn [matcher Nat.eqb] in Hm.
  by eapply matcher_to_end.
Qed.

(** X3 ([dateSchema] and [sanitizeString]): a date that the schema of the
    tools accepts has 10 characters, digits and hyphens, and the sanitizer
    returns it as it is, so the date filters reach the query unchanged. *)
Theorem dateSchema_sanitizeString (date : jsstring) :
  dateSchema date = true ->
  length date = 10 /\
  Forall (fun x => is_digit x = true \/ x = 45%N) date /\
  sanitizeString date = date.
Proof.
  intros Hdate. unfold dateSchema in Hdate.
  destruct (test_anchored (fun x => is_digit x = true \/ x = 45%N)
              [Cls cls_d (Times 4); Cls (one_of [45]%N) One;
               Cls cls_d (Times 2); Cls (one_of [45]%N) One;
               Cls cls_d (Times 2)] 10 date) as [Hlen Hchars];
    [done| |done|].
  { unfold classes_within.
    repeat (apply Forall_cons; split;
            [intros x Hx;
             first [by left
                   | right; unfold one_of, existsb in Hx;
                     rewrite orb_false_r in Hx; by apply N.eqb_eq in Hx]|]).
    apply Forall_nil_2. }
  split; [done|]. split; [done|].
  rewrite sanitizeString_inert_take.
  - apply take_ge. rewrite Hlen. unfold MAX_STRING_LENGTH. lia.
  - eapply Forall_impl; [exact Hchars|]. intros x [Hx | ->].
    + by apply inert_digit.
    + reflexivity.
Qed.

(** An instance: the first of May 2020. *)
Lemma dateSchema_sanitizeString_witness :
  sanitizeString (jsstr "2020-05-01") = jsstr "2020-05-01".
Proof.
  apply (dateSchema_sanitizeString (jsstr "2020-05-01")). reflexivity.
Defined.

(** X4 ([authTokenSchema] and [validateApiToken]): the schema and the check
    of the helper use one pattern, so they agree on every credential but the
    empty string: the schema refuses it and the check accepts it.  A
    credential the schema accepts is never refused as malformed. *)
Theorem authTokenSchema_validateApiToken :
  (forall token,
     authTokenSchema token = true <->
     validateApiToken token = true /\ token <> Some []) /\
  authTokenSchema (Some []) = false /\
  validateApiToken (Some []) = true.
Proof.
  split; [|by split].
  intros [[|x s]|]; unfold authTokenSchema, validateApiToken; simpl.
  - split; [done|]. by intros [_ ?].
  - split; [by intros ->|by intros [-> _]].
  - done.
Qed.

(** * Further properties of the parameters *)

(** X5 ([validateAndSanitizeParams]): the result has no key that the input
    lacks and never the key [__proto__]; the value under a key is what the
    loop assigns for the value of the input, and for a string of the input
    it is sanitized: none of the five dangerous characters and at most 1000
    code units. *)
Theorem validateAndSanitizeParams_values
    (params : gmap jsstring jsval) (key x : jsstring) :
  validateAndSanitizeParams params !! key = Some x ->
  key <> jsstr "__proto__" /\
  exists value,
    params !! key = Some value /\
    sanitized_value value = Some x /\
    (typeof value = TString ->
     Forall (fun c => dangerous c = false) x /\ length x <= MAX_STRING_LENGTH).
Proof.
  rewrite validateAndSanitizeParams_lookup.
  destruct (params !! key) as [value|]; [|done]. simpl.
  unfold assigned. case_bool_decide as Hkey; [done|]. intros Hx.
  split; [done|]. exists value. split; [done|]. split; [done|].
  destruct value; try done. simpl in Hx. simplify_eq. intros _. split.
  - apply Forall_forall. intros c. apply sanitizeString_no_dangerous.
  - apply sanitizeString_length.
Qed.

(** An instance: the key a of the example of the specification. *)
Lemma validateAndSanitizeParams_values_witness :
  jsstr "a" <> jsstr "__proto__" /\
  exists value,
    example_params !! jsstr "a" = Some value /\
    sanitized_value value = Some (jsstr "xy") /\
    (typeof value = TString ->
     Forall (fun c => dangerous c = false) (jsstr "xy")
     /\ length (jsstr "xy") <= MAX_STRING_LENGTH).
Proof.
  apply (validateAndSanitizeParams_values example_params).
  by vm_compute.
Defined.

(** X6 ([validateAndSanitizeParams]): the result follows the input entry by
    entry.  Setting a key of the input to a value sets the key of the result
    to what the loop assigns for it, and removes the key from the result when
    the loop assigns nothing (the value is [undefined], [null], an array or
    an object, or the key is [__proto__]); removing a key from the input
    removes it from the result; the empty input gives the empty result. *)
Theorem validateAndSanitizeParams_entrywise
    (params : gmap jsstring jsval) (key : jsstring) (value : jsval) :
  validateAndSanitizeParams (<[key := value]> params)
    = match assigned key value with
      | Some x => <[key := x]> (validateAndSanitizeParams params)
      | None => delete key (validateAndSanitizeParams params)
      end /\
  validateAndSanitizeParams (delete key params)
    = delete key (validateAndSanitizeParams params) /\
  validateAndSanitizeParams ∅ = ∅.
Proof.
  split; [|split]; apply map_eq; intros k.
  - rewrite validateAndSanitizeParams_lookup.
    destruct (decide (key = k)) as [->|Hne].
    + rewrite lookup_insert_eq. simpl.
      destruct (assigned k value);
        by rewrite ?lookup_insert_eq, ?lookup_delete_eq.
    + rewrite lookup_insert_ne by done.
      destruct (assigned key value);
        by rewrite ?lookup_insert_ne, ?lookup_delete_ne,
             validateAndSanitizeParams_lookup by done.
  - rewrite validateAndSanitizeParams_lookup.
    destruct (decide (key = k)) as [->|Hne].
    + by rewrite !lookup_delete_eq.
    + by rewrite !lookup_delete_ne, validateAndSanitizeParams_lookup by done.
  - by rewrite validateAndSanitizeParams_lookup, !lookup_empty.
Qed.

(** * Further properties of the response envelope *)

Lemma isArray_results data :
  isArray (get_prop data (jsstr "results")) = true ->
  exists o results, data = Obj o /\ o !! jsstr "results" = Some (Arr results).
Proof.
  destruct data as [| | | | | |o]; cbn [get_prop isArray]; try done.
  destruct (o !! jsstr "results") as [[]|] eqn:H; cbn [default isArray];
    try done.
  intros _. eauto.
Qed.

Lemma normalizeApiResponse_not_list data :
  isArray (get_prop data (jsstr "results")) = false ->
  normalizeApiResponse data = data.
Proof.
  intros H. unfold normalizeApiResponse. by rewrite H, andb_false_r.
Qed.

Lemma normalized_count_valid results count :
  exists n, normalized_count results count = Num n /\
            number_isNaN n = false /\ number_negative n = false.
Proof.
  assert (Hlen : exists n, Num (number_of_nat (length results)) = Num n /\
                   number_isNaN n = false /\ number_negative n = false).
  { eexists. split; [done|]. split; [done|]. simpl. apply Z.ltb_ge. lia. }
  unfold normalized_count. destruct count as [[| | |n| | |]|]; try done.
  destruct (number_isNaN n) eqn:Hnan; [done|].
  destruct (number_negative n) eqn:Hneg; [done|]. simpl. eauto.
Qed.

Lemma normalized_count_again results count :
  normalized_count results (Some (normalized_count results count))
  = normalized_count results count.
Proof.
  destruct (normalized_count_valid results count) as (n & -> & Hnan & Hneg).
  simpl. by rewrite Hnan, Hneg.
Qed.

Lemma normalized_link_again link :
  normalized_link (Some (normalized_link link)) = normalized_link link.
Proof. by destruct link as [[]|]. Qed.

(** X7 ([normalizeApiResponse]): normalizing a body that is already
    normalized changes nothing, for every JSON value. *)
Theorem normalizeApiResponse_idempotent (data : jsval) :
  normalizeApiResponse (normalizeApiResponse data) = normalizeApiResponse data.
Proof.
  destruct (isArray (get_prop data (jsstr "results"))) eqn:Harr.
  - apply isArray_results in Harr as (o & results & -> & Hres).
    rewrite (normalizeApiResponse_Obj o results Hres).
    erewrite normalizeApiResponse_Obj;
      [|by rewrite !lookup_insert_ne by done].
    f_equal. apply map_eq. intros k.
    rewrite !lookup_insert. repeat case_decide; simplify_eq; try done.
    + by rewrite normalized_link_again.
    + by rewrite normalized_link_again.
    + by rewrite normalized_count_again.
  - rewrite (normalizeApiResponse_not_list data Harr).
    by apply normalizeApiResponse_not_list.
Qed.

(** X8 ([normalizeApiResponse]): a value whose [results] is not an array
    (a single resource, [null], a string, a number, an array) is returned as
    it is; otherwise the result is the object with the same [results], a
    count that is a number, neither NaN nor negative, and [next] and
    [previous] that are a string or [null]. *)
Theorem normalizeApiResponse_envelope (data : jsval) :
  let normalized := normalizeApiResponse data in
  (isArray (get_prop data (jsstr "results")) = false /\ normalized = data) \/
  (isArray (get_prop data (jsstr "results")) = true /\
   get_prop normalized (jsstr "results") = get_prop data (jsstr "results") /\
   (exists n, get_prop normalized (jsstr "count") = Num n /\
              number_isNaN n = false /\ number_negative n = false) /\
   (typeof (get_prop normalized (jsstr "next")) = TString
    \/ get_prop normalized (jsstr "next") = Null) /\
   (typeof (get_prop normalized (jsstr "previous")) = TString
    \/ get_prop normalized (jsstr "previous") = Null)).
Proof.
  intros normalized. unfold normalized.
  destruct (isArray (get_prop data (jsstr "results"))) eqn:Harr.
  - right. split; [done|].
    apply isArray_results in Harr as (o & results & -> & Hres).
    rewrite (normalizeApiResponse_Obj o results Hres). cbn [get_prop].
    set (o3 := <[jsstr "previous" := _]> _).
    assert (Hr : o3 !! jsstr "results" = Some (Arr results))
      by (unfold o3; by rewrite !lookup_insert_ne by done).
    assert (Hc : o3 !! jsstr "count"
                 = Some (normalized_count results (o !! jsstr "count"))).
    { unfold o3. rewrite lookup_insert_ne by done.
      rewrite lookup_insert_ne by done. apply lookup_insert_eq. }
    assert (Hn : o3 !! jsstr "next"
                 = Some (normalized_link (o !! jsstr "next"))).
    { unfold o3. rewrite lookup_insert_ne by done. apply lookup_insert_eq. }
    assert (Hp : o3 !! jsstr "previous"
                 = Some (normalized_link (o !! jsstr "previous")))
      by apply lookup_insert_eq.
    rewrite Hr, Hc, Hn, Hp, Hres. cbn [default].
    split; [done|]. split; [apply normalized_count_valid|].
    split.
    + destruct (o !! jsstr "next") as [[]|]; simpl; auto.
    + destruct (o !! jsstr "previous") as [[]|]; simpl; auto.
  - left. split; [done|]. by apply normalizeApiResponse_not_list.
Qed.

(** * Further properties of the rate limiter *)

(** What the [while] loop does: it removes a prefix of times that are
    before the start of the window and stops at the first time that is
    not. *)
Lemma evict_split windowStart times :
  exists evicted,
    times = evicted ++ evict windowStart times /\
    Forall (fun t => (t < windowStart)%Z) evicted /\
    match evict windowStart times with
    | [] => True
    | t :: _ => (windowStart <= t)%Z
    end.
Proof.
  induction times as [|t times (evicted & Heq & Hev & Hhead)]; simpl.
  - by exists [].
  - destruct (Z.ltb_spec t windowStart).
    + exists (t :: evicted). simpl. rewrite <- Heq. by repeat split; auto.
    + by exists [].
Qed.

(** X9 ([RateLimiter.isAllowed]): the step of one call, on any state and
    with any clock.  The times recorded for the identity split into an
    evicted prefix, all before the start of the window, and a kept rest that
    does not begin with such a time; the call is admitted exactly when the
    kept rest has fewer than [maxRequests] times; afterwards the identity has
    the kept rest, followed by the time of the call when it was admitted and
    by nothing when it was refused. *)
Theorem isAllowed_step (this : RateLimiter) (identifier : jsstring) (now : Z) :
  let answer := (isAllowed this identifier now).1 in
  let after := (isAllowed this identifier now).2 in
  exists evicted kept,
    recorded this identifier = evicted ++ kept /\
    Forall (fun t => (t < now - windowMs this)%Z) evicted /\
    match kept with
    | [] => True
    | t :: _ => (now - windowMs this <= t)%Z
    end /\
    answer = bool_decide (Z.of_nat (length kept) < maxRequests this)%Z /\
    recorded after identifier = kept ++ (if answer then [now] else []).
Proof.
  intros answer after. unfold answer, after. rewrite isAllowed_eq. cbv zeta.
  destruct (evict_split (now - windowMs this) (recorded this identifier))
    as (evicted & Heq & Hev & Hhead).
  exists evicted, (evict (now - windowMs this) (recorded this identifier)).
  split; [done|]. split; [done|]. split; [done|].
  destruct (Z.geb_spec
              (Z.of_nat (length (evict (now - windowMs this)
                                   (recorded this identifier))))
              (maxRequests this)); cbn [fst snd];
    rewrite recorded_store, decide_True by done.
  - rewrite bool_decide_eq_false_2 by lia. by rewrite app_nil_r.
  - by rewrite bool_decide_eq_true_2 by lia.
Qed.

Lemma isAllowed_in_order
    (this : RateLimiter) (identifier : jsstring) (now : Z) :
  StronglySorted Z.le (recorded this identifier) ->
  let inside :=
    in_window_times (now - windowMs this) (recorded this identifier) in
  (isAllowed this identifier now).1
    = bool_decide (Z.of_nat (length inside) < maxRequests this)%Z /\
  recorded (isAllowed this identifier now).2 identifier
    = inside ++ (if (isAllowed this identifier now).1 then [now] else []).
Proof.
  intros Hsorted inside. rewrite isAllowed_eq. cbv zeta.
  rewrite evict_sorted by done. fold inside.
  destruct (Z.geb_spec (Z.of_nat (length inside)) (maxRequests this));
    cbn [fst snd]; rewrite recorded_store, decide_True by done.
  - rewrite bool_decide_eq_false_2 by lia. by rewrite app_nil_r.
  - by rewrite bool_decide_eq_true_2 by lia.
Qed.

(** X10 ([RateLimiter.isAllowed]): a sliding window.  When the times of the
    identity are in order, as they are under a clock that does not go
    back, the call is admitted exactly when fewer than [maxRequests] of them
    are in the window that ends now, and afterwards the identity has exactly
    the times in the window, with the time of the call if it was admitted. *)
Theorem isAllowed_sliding_window
    (this : RateLimiter) (identifier : jsstring) (now : Z) :
  StronglySorted Z.le (recorded this identifier) ->
  let inside :=
    in_window_times (now - windowMs this) (recorded this identifier) in
  (isAllowed this identifier now).1
    = bool_decide (Z.of_nat (length inside) < maxRequests this)%Z /\
  recorded (isAllowed this identifier now).2 identifier
    = inside ++ (if (isAllowed this identifier now).1 then [now] else []).
Proof. apply isAllowed_in_order. Qed.

(** An instance: three recorded times, of which two are in the window. *)
Lemma isAllowed_sliding_window_witness :
  let this := store (new_RateLimiter 2 10) (jsstr "client") [1; 5; 8]%Z in
  (isAllowed this (jsstr "client") 12).1 = false /\
  recorded (isAllowed this (jsstr "client") 12).2 (jsstr "client") = [5; 8]%Z.
Proof.
  intros this.
  destruct (isAllowed_sliding_window this (jsstr "client") 12) as [H1 H2].
  - repeat constructor; lia.
  - split; [rewrite H1; by vm_compute|rewrite H2; by vm_compute].
Defined.

Lemma serve_cons this identifier now later :
  serve this ((identifier, now) :: later)
  = ((isAllowed this identifier now).1
       :: (serve (isAllowed this identifier now).2 later).1,
     (serve (isAllowed this identifier now).2 later).2).
Proof.
  change (serve this ((identifier, now) :: later))
    with (let '(answer, this0) := isAllowed this identifier now in
          let '(answers, this1) := serve this0 later in
          (answer :: answers, this1)).
  destruct (isAllowed this identifier now) as [answer this']. cbn [fst snd].
  by destruct (serve this' later).
Qed.

Lemma recorded_isAllowed_other this a b now :
  a <> b -> recorded (isAllowed this a now).2 b = recorded this b.
Proof. intros Hab. unfold recorded. by rewrite isAllowed_other. Qed.




Lemma in_window_times_elem windowStart times t :
  t ∈ in_window_times windowStart times -> t ∈ times.
Proof.
  unfold in_window_times. rewrite list_elem_of_filter. tauto.
Qed.

Lemma in_window_times_sorted windowStart times :
  StronglySorted Z.le times ->
  StronglySorted Z.le (in_window_times windowStart times).
Proof.
  unfold in_window_times.
  induction 1 as [|t times Hsorted IH Hall]; [constructor|].
  rewrite filter_cons. case_decide; [|done]. constructor; [done|].
  apply Forall_forall. intros t' Ht'. rewrite Forall_forall in Hall.
  apply Hall. by apply (in_window_times_elem windowStart).
Qed.

Lemma isAllowed_sorted this identifier now bound :
  (bound <= now)%Z ->
  (forall id, StronglySorted Z.le (recorded this id) /\
              Forall (fun t => (t <= bound)%Z) (recorded this id)) ->
  forall id, StronglySorted Z.le (recorded (isAllowed this identifier now).2 id)
             /\ Forall (fun t => (t <= now)%Z)
                  (recorded (isAllowed this identifier now).2 id).
Proof.
  intros Hnow Hinv id. destruct (Hinv id) as [Hs Hb].
  assert (Hb' : Forall (fun t => (t <= now)%Z) (recorded this id))
    by (eapply Forall_impl; [exact Hb|]; simpl; intros; lia).
  destruct (decide (identifier = id)) as [<-|Hne];
    [|by rewrite recorded_isAllowed_other by done].
  destruct (isAllowed_in_order this identifier now Hs) as [_ ->].
  assert (Hs' : StronglySorted Z.le
                  (in_window_times (now - windowMs this)
                     (recorded this identifier)))
    by (by apply in_window_times_sorted).
  assert (Hb'' : Forall (fun t => (t <= now)%Z)
                   (in_window_times (now - windowMs this)
                      (recorded this identifier)))
    by (apply Forall_forall; intros t Ht%in_window_times_elem;
        rewrite Forall_forall in Hb'; by apply Hb').
  destruct (isAllowed this identifier now).1.
  - split.
    + apply StronglySorted_app_2; [|done|by repeat constructor].
      intros t1 t2 Ht1 Ht2. apply list_elem_of_singleton in Ht2 as ->.
      rewrite Forall_forall in Hb''. by apply Hb''.
    + apply Forall_app. split; [done|]. by repeat constructor.
  - by rewrite app_nil_r.
Qed.

(** X12 ([RateLimiter]): under a clock that does not go back, the times
    recorded for every identity stay in order, so every call of such a run
    is answered by the sliding window of X10. *)
Theorem serve_sorted (limit window : Z) (calls : list (jsstring * Z)) :
  StronglySorted Z.le calls.*2 ->
  forall identifier,
    StronglySorted Z.le
      (recorded (serve (new_RateLimiter limit window) calls).2 identifier).
Proof.
  intros Hclock.
  assert (Hgen : forall this bound,
            Forall (fun t => (bound <= t)%Z) calls.*2 ->
            (forall id, StronglySorted Z.le (recorded this id) /\
                        Forall (fun t => (t <= bound)%Z) (recorded this id)) ->
            forall id, StronglySorted Z.le (recorded (serve this calls).2 id)).
  { induction calls as [|[identifier now] later IH];
      intros this bound Hbound Hinv id.
    - apply Hinv.
    - rewrite serve_cons. cbn [snd]. simpl in Hclock, Hbound.
      apply StronglySorted_inv in Hclock as [Hlater Hnow].
      inversion_clear Hbound as [|? ? Hb Hbs].
      apply (IH Hlater _ now); [done|].
      by apply (isAllowed_sorted this identifier now bound). }
  destruct calls as [|[identifier now] later].
  - intros id. unfold recorded. simpl. rewrite lookup_empty. constructor.
  - apply (Hgen _ now).
    + simpl in *. apply StronglySorted_inv in Hclock as [_ Hnow].
      constructor; [lia|done].
    + intros id. unfold recorded. simpl. rewrite lookup_empty.
      split; constructor.
Qed.

(** An instance: three calls at the times 1, 1 and 4. *)
Lemma serve_sorted_witness :
  StronglySorted Z.le
    (recorded
       (serve (new_RateLimiter 2 10)
          [(jsstr "a", 1); (jsstr "b", 1); (jsstr "a", 4)]%Z).2
       (jsstr "a")).
Proof.
  apply serve_sorted. apply (bool_decide_unpack _). by vm_compute.
Defined.

(** X13 ([RateLimiter.isAllowed]): a limiter whose maximum is zero or less
    refuses every call, for every identity, at every time and in every
    state, and no call adds a time to what is recorded. *)
Theorem isAllowed_zero_limit (this : RateLimiter) (identifier : jsstring)
    (now : Z) :
  (maxRequests this <= 0)%Z ->
  (isAllowed this identifier now).1 = false /\
  recorded (isAllowed this identifier now).2 identifier
    = evict (now - windowMs this) (recorded this identifier) /\
  length (recorded (isAllowed this identifier now).2 identifier)
    <= length (recorded this identifier).
Proof.
  intros Hmax. rewrite isAllowed_eq. cbv zeta.
  destruct (Z.geb_spec
              (Z.of_nat (length (evict (now - windowMs this)
                                   (recorded this identifier))))
              (maxRequests this)); [|lia].
  cbn [fst snd]. rewrite recorded_store, decide_True by done.
  split; [done|]. split; [done|]. apply evict_length.
Qed.

(** An instance: a new limiter with the maximum 0. *)
Lemma isAllowed_zero_limit_witness :
  (isAllowed (new_RateLimiter 0 60000) (jsstr "anonymous") 5).1 = false.
Proof.
  apply (isAllowed_zero_limit (new_RateLimiter 0 60000) (jsstr "anonymous") 5).
  simpl. lia.
Defined.

(** * Further properties of the request helper *)

Lemma isAllowed_admitted this identifier now :
  (isAllowed this identifier now).1 = true ->
  recorded (isAllowed this identifier now).2 identifier
  = evict (now - windowMs this) (recorded this identifier) ++ [now].
Proof.
  rewrite isAllowed_eq. cbv zeta.
  destruct (Z.of_nat (length (evict (now - windowMs this)
                               (recorded this identifier)))
            >=? maxRequests this)%Z; [done|].
  intros _. cbn [snd]. by rewrite recorded_store, decide_True.
Qed.

Lemma limited_clock env env' authToken w :
  Date_now env' = Date_now env ->
  limited env' authToken w = limited env authToken w.
Proof. intros H. unfold limited. by rewrite H. Qed.



(** X15 ([makeCourtListenerRequest]): a call that passes the two checks
    uses a slot of its identity whatever the server answers, also when the
    request fails: the limiter afterwards is the one [isAllowed] leaves, the
    time of the call is recorded for the identity, and the times of every
    other identity are as before. *)
Theorem makeCourtListenerRequest_uses_slot env endpoint params authToken w :
  validateApiToken authToken = true ->
  (isAllowed (rateLimiter w) (clientId_of authToken) (Date_now env)).1 = true ->
  let result := makeCourtListenerRequest env endpoint params authToken w in
  rateLimiter result.2
    = (isAllowed (rateLimiter w) (clientId_of authToken) (Date_now env)).2 /\
  last (recorded (rateLimiter result.2) (clientId_of authToken))
    = Some (Date_now env) /\
  (forall identity,
     identity <> clientId_of authToken ->
     recorded (rateLimiter result.2) identity
     = recorded (rateLimiter w) identity).
Proof.
  intros Hvalid Hallowed result.
  assert (Hlimiter :
    rateLimiter result.2
    = (isAllowed (rateLimiter w) (clientId_of authToken) (Date_now env)).2).
  { unfold result. rewrite run_fetched by done.
    by destruct (answer_of _) as [v [line|]]. }
  rewrite Hlimiter. split; [done|]. split.
  - rewrite isAllowed_admitted by done. apply last_snoc.
  - intros identity Hne. unfold recorded. by rewrite isAllowed_other.
Qed.

(** An instance: the network is down. *)
Lemma makeCourtListenerRequest_uses_slot_witness :
  let result :=
    makeCourtListenerRequest (env_answering network_down) (jsstr "/courts/")
      ∅ None fresh_world in
  result.1 = Fulfilled Null /\
  recorded (rateLimiter result.2) (jsstr "anonymous") = [0%Z].
Proof.
  intros result.
  destruct (makeCourtListenerRequest_uses_slot (env_answering network_down)
              (jsstr "/courts/") ∅ None fresh_world) as (Hlimiter & _);
    [by vm_compute|by vm_compute|].
  fold result in Hlimiter. split; [by vm_compute|].
  rewrite Hlimiter. by vm_compute.
Defined.

(** X16 ([makeCourtListenerRequest]): the result depends on the environment
    through the clock and through the answer of [fetch] to one request
    only, the one with the base address followed by the endpoint, the
    sanitized parameters and the headers of the helper; and when the limiter
    refuses the call, [fetch] has no part in it at all. *)
Theorem makeCourtListenerRequest_environment
    env env' endpoint params authToken w :
  Date_now env' = Date_now env ->
  (fetch env' (outgoing_request endpoint params authToken)
   = fetch env (outgoing_request endpoint params authToken) ->
   makeCourtListenerRequest env' endpoint params authToken w
   = makeCourtListenerRequest env endpoint params authToken w) /\
  ((isAllowed (rateLimiter w) (clientId_of authToken) (Date_now env)).1 = false ->
   makeCourtListenerRequest env' endpoint params authToken w
   = makeCourtListenerRequest env endpoint params authToken w).
Proof.
  intros Hclock.
  assert (Hrefused :
    (isAllowed (rateLimiter w) (clientId_of authToken) (Date_now env)).1 = false ->
    makeCourtListenerRequest env' endpoint params authToken w
    = makeCourtListenerRequest env endpoint params authToken w).
  { intros Hr.
    destruct (validateApiToken authToken) eqn:Hvalid;
      [|by rewrite !run_malformed].
    rewrite !run_refused by (done || by rewrite Hclock).
    by rewrite (limited_clock env env'). }
  split; [|done]. intros Hfetch.
  destruct (validateApiToken authToken) eqn:Hvalid;
    [|by rewrite !run_malformed].
  destruct (isAllowed (rateLimiter w) (clientId_of authToken) (Date_now env)).1
    eqn:Hallowed; [|by apply Hrefused].
  rewrite !run_fetched by (done || by rewrite Hclock).
  by rewrite Hfetch, (limited_clock env env').
Qed.

(** An instance: on the limiter whose anonymous identity is at its limit,
    a server error and a network failure give the same result. *)
Lemma makeCourtListenerRequest_environment_witness :
  makeCourtListenerRequest (env_answering server_error) (jsstr "/courts/") ∅
    None exhausted_world
  = makeCourtListenerRequest (env_answering network_down) (jsstr "/courts/") ∅
      None exhausted_world.
Proof.
  apply (makeCourtListenerRequest_environment (env_answering network_down)
           (env_answering server_error) (jsstr "/courts/") ∅ None
           exhausted_world eq_refl).
  by vm_compute.
Defined.


(** X18 ([makeCourtListenerRequest]): the identity of a call.  A call with
    a credential never shares the identity of the calls without one; two
    credentials have one identity, and so one rate window, exactly when their
    first 8 characters are the same. *)
Theorem clientId_of_credentials :
  (forall t, present (Some t) = true ->
     clientId_of (Some t) <> clientId_of None) /\
  clientId_of None = clientId_of (Some []) /\
  (forall t1 t2,
     present (Some t1) = true -> present (Some t2) = true ->
     clientId_of (Some t1) = clientId_of (Some t2) <-> take 8 t1 = take 8 t2).
Proof.
  split; [|split; [done|]].
  - intros t Ht. unfold clientId_of. rewrite Ht. simpl. discriminate.
  - intros t1 t2 H1 H2. unfold clientId_of. rewrite H1, H2. cbn [default].
    rewrite !substring_0. split.
    + intros H. by apply app_inv_head in H.
    + intros H. by f_equal.
Qed.
